(** * helium-animated-pages: the selection / transition state machine

    A shallow embedding of [src/helium-animated-pages.js] (the class
    [HeliumAnimatedPages]) and the properties of its selection resolver, its
    transition rule matcher and its animation orchestrator.

    The methods are written in a state-and-exception monad over the
    properties of an instance ([HeliumAnimatedPages.State]); an exception
    leaves the state as it is at the point of the throw.  The life of an
    instance is a sequence of actions ([HeliumAnimatedPages.Action]): calls of
    the selection methods and deliveries of the animation-finished event.

    Modelling boundary.
    - The element manipulates the DOM only through [children],
      [querySelector], [getAttribute], [setAttribute], [removeAttribute],
      [classList.add], [classList.remove], [addEventListener] and
      [removeEventListener].  These calls are modelled on a store of elements
      (module [Dom]) for the arguments on which the browser does not raise a
      [DOMException]: attribute names and values for which the interpolated
      text [[name="value"]] is the attribute selector of that name and value,
      and class names that are single tokens.
    - Exceptions of the language itself (the [Error]s the class throws, and
      the [TypeError] of reading a property of [undefined] or [null]) are
      modelled in full.
    - A rule table is modelled by its own keys, and a rule by its two class
      names.
    - The flags [_animating], [_inAnimationEnded] and [_outAnimationEnded]
      are booleans: [undefined], their value before the first transition, is
      [false].
    - The page does not add, remove or move elements below the host and does
      not change [animationClasses] or [attrForSelected] during the life of an
      instance. *)

From Stdlib Require Import ZArith.
From stdpp Require Import base option list gmap strings pretty.

Local Open Scope Z_scope.
Local Open Scope string_scope.

(** ** The DOM store *)

Module Dom.

(** The two bound methods the constructor creates ([_inAnimationBound] and
    [_outAnimationBound]); they are the only listeners the element
    registers, always for its animation-finished event. *)
Inductive Listener := InAnimationBound | OutAnimationBound.

#[global] Instance Listener_eq_dec : EqDecision Listener.
Proof. solve_decision. Defined.

(** An element below the host.  [isChild] tells a direct child of the host
    (a member of [this.children]) from a deeper descendant, which
    [querySelector] also visits. *)
Record Element := mkElement {
  isChild : bool;
  attributes : gmap string string;
  classList : list string;
  listeners : list Listener;
}.

(** The elements below the host in document order.  An element is
    referred to by its position: the class never inserts, removes or moves
    a node, so positions are identities. *)
Abbreviation Tree := (list Element).

Definition getAttribute (name : string) (e : Element) : option string :=
  attributes e !! name.

Definition setAttribute (name value : string) (e : Element) : Element :=
  mkElement (isChild e) (<[name := value]> (attributes e)) (classList e) (listeners e).

Definition removeAttribute (name : string) (e : Element) : Element :=
  mkElement (isChild e) (delete name (attributes e)) (classList e) (listeners e).

(** [classList.add]: a token already present is not added again. *)
Definition classList_add (c : string) (e : Element) : Element :=
  mkElement (isChild e) (attributes e)
    (if decide (c ∈ classList e) then classList e else classList e ++ [c])
    (listeners e).

Definition classList_remove (c : string) (e : Element) : Element :=
  mkElement (isChild e) (attributes e)
    (filter (λ x, x ≠ c) (classList e)) (listeners e).

(** [addEventListener]: registering the same callback twice for the same
    event is a no-op. *)
Definition addEventListener (h : Listener) (e : Element) : Element :=
  mkElement (isChild e) (attributes e) (classList e)
    (if decide (h ∈ listeners e) then listeners e else listeners e ++ [h]).

Definition removeEventListener (h : Listener) (e : Element) : Element :=
  mkElement (isChild e) (attributes e) (classList e)
    (filter (λ x, x ≠ h) (listeners e)).

(** [this.querySelector(`[name="value"]`)]: the first element in document
    order, child or deeper, that carries the attribute with that value. *)
Definition querySelector (name value : string) (t : Tree) : option nat :=
  fst <$> list_find (λ e, getAttribute name e = Some value) t.

(** [this.children]: the positions of the direct children, in order. *)
Fixpoint childrenFrom (pos : nat) (t : Tree) : list nat :=
  match t with
  | [] => []
  | e :: t' =>
      if isChild e then pos :: childrenFrom (S pos) t'
      else childrenFrom (S pos) t'
  end.

Definition children (t : Tree) : list nat := childrenFrom 0 t.

(** [Array.prototype.indexOf] on the children, for an element or [null]. *)
Definition indexOf (ch : list nat) (item : option nat) : Z :=
  match item with
  | None => -1
  | Some n =>
      match list_find (λ c, c = n) ch with
      | Some (i, _) => Z.of_nat i
      | None => -1
      end
  end.

(** [getAttribute] on the element at a position. *)
Definition getAttributeAt (name : string) (t : Tree) (n : nat) : option string :=
  match t !! n with
  | Some e => getAttribute name e
  | None => None
  end.

(** What an observer of the page sees of an element: its attributes and
    its classes. *)
Definition look (e : Element) : gmap string string * list string :=
  (attributes e, classList e).

End Dom.

Import Dom.

(** ** JavaScript values and exceptions *)

(** The values an argument [next] can take.  A number is an integer or not
    (fractions, [NaN], the infinities); values that are neither strings nor
    numbers carry the text the language converts them to. *)
Inductive JsValue :=
| JsUndefined
| JsNull
| JsBoolean (b : bool)
| JsInteger (z : Z)
| JsNonInteger (text : string)
| JsString (s : string)
| JsObject (text : string).

#[global] Instance JsValue_eq_dec : EqDecision JsValue.
Proof. solve_decision. Defined.

(** The conversion a template literal applies.  (Integers print in decimal;
    the language switches to exponent notation from 1e21 on, far above any
    index that finds a child.) *)
Definition toString (v : JsValue) : string :=
  match v with
  | JsUndefined => "undefined"
  | JsNull => "null"
  | JsBoolean b => if b then "true" else "false"
  | JsInteger z => pretty z
  | JsNonInteger text => text
  | JsString s => s
  | JsObject text => text
  end.

Definition truthy (v : JsValue) : bool :=
  match v with
  | JsUndefined | JsNull => false
  | JsBoolean b => b
  | JsInteger z => negb (Z.eqb z 0)
  | JsNonInteger text => negb (String.eqb text "NaN")
  | JsString s => negb (String.eqb s EmptyString)
  | JsObject _ => true
  end.

(** [v === 0] *)
Definition isZero (v : JsValue) : bool :=
  match v with JsInteger 0 => true | _ => false end.

Inductive JsError :=
| Error (message : string)
| TypeError.

Inductive Outcome (A : Type) :=
| Return (a : A)
| Throw (e : JsError).
Arguments Return {A} a.
Arguments Throw {A} e.

(** A transition rule: [{ in: ..., out: ... }]. *)
Record Rule := mkRule { rule_in : string; rule_out : string }.

#[global] Instance Rule_eq_dec : EqDecision Rule.
Proof. solve_decision. Defined.

(** ** The element *)

Module HeliumAnimatedPages.

(** The properties of an instance, and the elements below it. *)
Record State := mkState {
  animationClasses : option (gmap string Rule);
  attrForSelected : option string;
  tree : Tree;
  _selected : JsValue;
  _animating : bool;
  _inAnimationEnded : bool;
  _outAnimationEnded : bool;
  _inPage : option nat;
  _outPage : option nat;
  _currentClasses : option Rule;
}.

Definition with_tree (t : Tree) (s : State) : State :=
  mkState (animationClasses s) (attrForSelected s) t (_selected s)
    (_animating s) (_inAnimationEnded s) (_outAnimationEnded s)
    (_inPage s) (_outPage s) (_currentClasses s).
Definition with_selected (v : JsValue) (s : State) : State :=
  mkState (animationClasses s) (attrForSelected s) (tree s) v
    (_animating s) (_inAnimationEnded s) (_outAnimationEnded s)
    (_inPage s) (_outPage s) (_currentClasses s).
Definition with_animating (b : bool) (s : State) : State :=
  mkState (animationClasses s) (attrForSelected s) (tree s) (_selected s)
    b (_inAnimationEnded s) (_outAnimationEnded s)
    (_inPage s) (_outPage s) (_currentClasses s).
Definition with_inAnimationEnded (b : bool) (s : State) : State :=
  mkState (animationClasses s) (attrForSelected s) (tree s) (_selected s)
    (_animating s) b (_outAnimationEnded s)
    (_inPage s) (_outPage s) (_currentClasses s).
Definition with_outAnimationEnded (b : bool) (s : State) : State :=
  mkState (animationClasses s) (attrForSelected s) (tree s) (_selected s)
    (_animating s) (_inAnimationEnded s) b
    (_inPage s) (_outPage s) (_currentClasses s).
Definition with_inPage (p : option nat) (s : State) : State :=
  mkState (animationClasses s) (attrForSelected s) (tree s) (_selected s)
    (_animating s) (_inAnimationEnded s) (_outAnimationEnded s)
    p (_outPage s) (_currentClasses s).
Definition with_outPage (p : option nat) (s : State) : State :=
  mkState (animationClasses s) (attrForSelected s) (tree s) (_selected s)
    (_animating s) (_inAnimationEnded s) (_outAnimationEnded s)
    (_inPage s) p (_currentClasses s).
Definition with_currentClasses (r : option Rule) (s : State) : State :=
  mkState (animationClasses s) (attrForSelected s) (tree s) (_selected s)
    (_animating s) (_inAnimationEnded s) (_outAnimationEnded s)
    (_inPage s) (_outPage s) r.

(** A freshly constructed element: no private property is set yet, and no
    listener is registered on any element below it. *)
Definition construct (classes : option (gmap string Rule))
    (attr : option string) (t : Tree) : State :=
  mkState classes attr t JsUndefined false false false None None None.

(** *** Methods: state and exceptions *)

Definition M (A : Type) : Type := State → Outcome A * State.

#[global] Instance M_ret : MRet M := λ A a s, (Return a, s).
#[global] Instance M_bind : MBind M := λ A B k m s,
  match m s with
  | (Return a, s') => k a s'
  | (Throw e, s') => (Throw e, s')
  end.

Definition this : M State := λ s, (Return s, s).
Definition assign (f : State → State) : M unit := λ s, (Return tt, f s).
Definition throw {A} (e : JsError) : M A := λ s, (Throw e, s).

(** Apply a DOM call to the element at position [n]. *)
Definition onElement (n : nat) (f : Element → Element) : M unit :=
  assign (λ s, with_tree (alter f n (tree s)) s).

(** Reading a property of the object a reference holds: a [TypeError]
    when it holds [null] or [undefined]. *)
Definition deref {A} (o : option A) : M A :=
  match o with
  | Some a => mret a
  | None => throw TypeError
  end.

(** *** Getters *)

Definition isAnimating (s : State) : bool := _animating s.

Definition selected (s : State) : JsValue := _selected s.

(** [this.attrForSelected] used as a condition: unset and the empty string
    are both falsy. *)
Definition attrIsSet (s : State) : bool :=
  match attrForSelected s with
  | Some a => negb (String.eqb a EmptyString)
  | None => false
  end.

(** [this.attrForSelected] interpolated into a selector or handed to
    [getAttribute]. *)
Definition attrName (s : State) : string :=
  match attrForSelected s with
  | Some a => a
  | None => "undefined"
  end.

(** [this.children[key]] for a numeric key.  (A string key would be a
    named lookup on the collection; it can only arise from changing
    [attrForSelected] between two selections, which is left out: see
    [selected_kind] below.) *)
Definition childrenAt (key : JsValue) (t : Tree) : option nat :=
  match key with
  | JsInteger z => if Z.leb 0 z then children t !! Z.to_nat z else None
  | _ => None
  end.

Definition selectedItem (s : State) : option nat :=
  if truthy (_selected s) || isZero (_selected s) then
    if attrIsSet s
    then querySelector (attrName s) (toString (_selected s)) (tree s)
    else childrenAt (_selected s) (tree s)
  else None.

(** *** The transition rule matcher *)

(** [_animationClasses(next, prev)], with [this.animationClasses] as [table].
    The result is [None] when the lookup yields [undefined]. *)
Definition _animationClasses (next prev : JsValue) (table : gmap string Rule)
    : option Rule :=
  let fullId := toString prev +:+ "_" +:+ toString next in
  let toId := "*_" +:+ toString next in
  let fromId := toString prev +:+ "_*" in
  if decide (fullId ∈ dom table) then table !! fullId
  else if decide (toId ∈ dom table) then table !! toId
  else if decide (fromId ∈ dom table) then table !! fromId
  else table !! "default".

(** *** The selection resolver *)

Definition _isStringMode (next : JsValue) : M bool :=
  match next with
  | JsString _ => mret true
  | JsInteger z =>
      if Z.leb 0 z then mret false
      else throw (Error "next must be a string or a positive integer")
  | JsNonInteger _ =>
      throw (Error "next must be a string or a positive integer")
  | _ => throw (Error "next must be a string or a positive integer")
  end.

Definition dquote : string := String (Ascii.ascii_of_nat 34) EmptyString.

Definition noPageMessage (stringMode : bool) (attr : string) (next : JsValue)
    : string :=
  if stringMode
  then "No page found with " +:+ attr +:+ "=" +:+ dquote +:+ toString next +:+ dquote
  else "No page found with index " +:+ toString next.

(** *** The animation orchestrator *)

Definition _beginAnimation : M unit :=
  assign (with_animating true);;
  s ← this;
  inPage ← deref (_inPage s);
  onElement inPage (addEventListener InAnimationBound);;
  match _outPage s with
  | Some outPage =>
      onElement outPage (addEventListener OutAnimationBound);;
      classes ← deref (_currentClasses s);
      onElement outPage (classList_add (rule_out classes))
  | None => assign (with_outAnimationEnded true)
  end;;
  classes ← deref (_currentClasses s);
  onElement inPage (classList_add (rule_in classes));;
  onElement inPage (setAttribute "active" "true").

Definition _onAnimationEnd : M unit :=
  s ← this;
  if _inAnimationEnded s && _outAnimationEnded s then
    assign (with_inAnimationEnded false);;
    assign (with_outAnimationEnded false);;
    assign (with_animating false);;
    inPage ← deref (_inPage s);
    classes ← deref (_currentClasses s);
    onElement inPage (classList_remove (rule_in classes));;
    match _outPage s with
    | Some outPage =>
        onElement outPage (removeAttribute "active");;
        classes ← deref (_currentClasses s);
        onElement outPage (classList_remove (rule_out classes))
    | None => mret tt
    end;;
    assign (with_inPage None);;
    assign (with_outPage None);;
    assign (with_currentClasses None)
  else mret tt.

Definition _inAnimation : M unit :=
  s ← this;
  inPage ← deref (_inPage s);
  onElement inPage (removeEventListener InAnimationBound);;
  assign (with_inAnimationEnded true);;
  _onAnimationEnd.

Definition _outAnimation : M unit :=
  s ← this;
  outPage ← deref (_outPage s);
  onElement outPage (removeEventListener OutAnimationBound);;
  assign (with_outAnimationEnded true);;
  _onAnimationEnd.

(** *** The [selected] setter and the selection methods *)

(** The expression assigned to [this._inPage]. *)
Definition resolve (stringMode : bool) (next : JsValue) (s : State)
    : option nat :=
  if stringMode
  then querySelector (attrName s) (toString next) (tree s)
  else childrenAt next (tree s).

(** The identifier of the outgoing page handed to the rule matcher. *)
Definition prevOf (stringMode : bool) (s : State) : JsValue :=
  match _outPage s with
  | Some outPage =>
      if stringMode then
        match getAttributeAt (attrName s) (tree s) outPage with
        | Some v => JsString v
        | None => JsNull
        end
      else JsInteger (indexOf (children (tree s)) (Some outPage))
  | None => JsString EmptyString
  end.

(** The value stored in [this._selected]. *)
Definition selectedOf (next : JsValue) (inPage : nat) (s : State) : JsValue :=
  if attrIsSet s then
    match getAttributeAt (attrName s) (tree s) inPage with
    | Some v => JsString v
    | None => JsNull
    end
  else next.

Definition set_selected (next : JsValue) : M unit :=
  s ← this;
  match animationClasses s with
  | None => throw (Error "animationClasses must be defined")
  | Some table =>
      if _animating s then mret tt else
      stringMode ← _isStringMode next;
      if stringMode && negb (attrIsSet s) then
        throw (Error "attrForSelected must be defined if next is a string")
      else
      assign (with_inPage (resolve stringMode next s));;
      assign (with_outPage (selectedItem s));;
      s ← this;
      match _inPage s with
      | None => throw (Error (noPageMessage stringMode (attrName s) next))
      | Some inPage =>
          if decide (_inPage s = _outPage s) then mret tt else
          let prev := prevOf stringMode s in
          assign (with_selected (selectedOf next inPage s));;
          assign (with_currentClasses (_animationClasses next prev table));;
          _beginAnimation
      end
  end.

Definition select (next : JsValue) : M unit := set_selected next.

Definition selectNext : M unit :=
  s ← this;
  let children := children (tree s) in
  if decide (length children = 0%nat) then
    throw (Error "This component has no children to animate")
  else
    let selectedItem := selectedItem s in
    let prevIndex := indexOf children selectedItem in
    let nextIndex :=
      if Z.leb (Z.of_nat (length children)) (prevIndex + 1) then 0
      else prevIndex + 1 in
    set_selected (JsInteger nextIndex).

Definition selectPrevious : M unit :=
  s ← this;
  let children := children (tree s) in
  if decide (length children = 0%nat) then
    throw (Error "This component has no children to animate")
  else
    let selectedItem := selectedItem s in
    let prevIndex := indexOf children selectedItem in
    let nextIndex :=
      if Z.ltb (prevIndex - 1) 0 then Z.of_nat (length children) - 1
      else prevIndex - 1 in
    set_selected (JsInteger nextIndex).

(** *** The animation-finished event and the life of an instance *)

Definition handleEvent (h : Listener) : M unit :=
  match h with
  | InAnimationBound => _inAnimation
  | OutAnimationBound => _outAnimation
  end.

Definition listenersAt (n : nat) (t : Tree) : list Listener :=
  match t !! n with
  | Some e => listeners e
  | None => []
  end.

(** The browser calls the listeners that were registered on the target when
    the event arrived, in order, skipping one that has been removed in the
    meantime; an exception in a listener is reported and the dispatch goes
    on.  The second component lists the listeners that were called. *)
Fixpoint invoke (target : nat) (hs : list Listener) (s : State)
    : State * list Listener :=
  match hs with
  | [] => (s, [])
  | h :: hs' =>
      if decide (h ∈ listenersAt target (tree s)) then
        let r := invoke target hs' (snd (handleEvent h s)) in
        (fst r, h :: snd r)
      else invoke target hs' s
  end.

(** The animation-finished event reaches the element [target] (its own
    animation has ended, or the event has bubbled up to it). *)
Definition dispatchAnimationEnd (target : nat) (s : State)
    : State * list Listener :=
  invoke target (listenersAt target (tree s)) s.

(** What can happen to an instance: the page calls one of its selection
    methods (an exception is the caller's to handle), or the browser delivers
    the animation-finished event to an element. *)
Inductive Action :=
| Select (next : JsValue)
| SelectNext
| SelectPrevious
| AnimationEnd (target : nat).

Definition step (a : Action) (s : State) : State :=
  match a with
  | Select next => snd (select next s)
  | SelectNext => snd (selectNext s)
  | SelectPrevious => snd (selectPrevious s)
  | AnimationEnd target => fst (dispatchAnimationEnd target s)
  end.

(** The listeners an action causes to be called. *)
Definition fired (a : Action) (s : State) : list Listener :=
  match a with
  | AnimationEnd target => snd (dispatchAnimationEnd target s)
  | _ => []
  end.

Fixpoint run (acts : list Action) (s : State) : State :=
  match acts with
  | [] => s
  | a :: acts' => run acts' (step a s)
  end.

Fixpoint firedBy (acts : list Action) (s : State) : list Listener :=
  match acts with
  | [] => []
  | a :: acts' => fired a s ++ firedBy acts' (step a s)
  end.

(** The states an instance can be in: constructed over elements that carry
    none of its listeners, then driven by actions. *)
Inductive reachable : State → Prop :=
| reachable_construct classes attr t :
    Forall (λ e, listeners e = []) t →
    reachable (construct classes attr t)
| reachable_step a s :
    reachable s → reachable (step a s).

(** *** Vocabulary of the properties *)

(** The result of [_beginAnimation] when the incoming page is set. *)
Definition begun (i : nat) (s : State) : Outcome unit * State :=
  let s1 :=
    with_tree (alter (addEventListener InAnimationBound) i (tree s))
      (with_animating true s) in
  match _outPage s with
  | Some j =>
      let s2 := with_tree (alter (addEventListener OutAnimationBound) j (tree s1)) s1 in
      match _currentClasses s with
      | None => (Throw TypeError, s2)
      | Some r =>
          (Return tt,
           with_tree
             (alter (setAttribute "active" "true") i
                (alter (classList_add (rule_in r)) i
                   (alter (classList_add (rule_out r)) j (tree s2)))) s2)
      end
  | None =>
      let s2 := with_outAnimationEnded true s1 in
      match _currentClasses s with
      | None => (Throw TypeError, s2)
      | Some r =>
          (Return tt,
           with_tree
             (alter (setAttribute "active" "true") i
                (alter (classList_add (rule_in r)) i (tree s2))) s2)
      end
  end.

(** The private state the setter has built when it calls
    [_beginAnimation] for the page [i]. *)
Definition prepared (next : JsValue) (table : gmap string Rule)
    (stringMode : bool) (i : nat) (s : State) : State :=
  let s1 := with_outPage (selectedItem s) (with_inPage (Some i) s) in
  with_currentClasses (_animationClasses next (prevOf stringMode s1) table)
    (with_selected (selectedOf next i s1) s1).

(** The result of the setter on an instance that has its rule table and is
    not animating. *)
Definition selecting (next : JsValue) (table : gmap string Rule) (s : State)
    : Outcome unit * State :=
  match (_isStringMode next s).1 with
  | Throw e => (Throw e, s)
  | Return stringMode =>
      if stringMode && negb (attrIsSet s) then
        (Throw (Error "attrForSelected must be defined if next is a string"), s)
      else
        match resolve stringMode next s with
        | None =>
            (Throw (Error (noPageMessage stringMode (attrName s) next)),
             with_outPage (selectedItem s) (with_inPage None s))
        | Some i =>
            if decide (Some i = selectedItem s) then
              (Return tt, with_outPage (selectedItem s) (with_inPage (Some i) s))
            else begun i (prepared next table stringMode i s)
        end
  end.

(** The result of [_onAnimationEnd] once both legs are complete. *)
Definition settling (s : State) : Outcome unit * State :=
  let s1 :=
    with_animating false
      (with_outAnimationEnded false (with_inAnimationEnded false s)) in
  match _inPage s, _currentClasses s with
  | Some i, Some r =>
      let t1 := alter (classList_remove (rule_in r)) i (tree s) in
      let t2 :=
        match _outPage s with
        | Some j =>
            alter (classList_remove (rule_out r)) j
              (alter (removeAttribute "active") j t1)
        | None => t1
        end in
      (Return tt,
       with_currentClasses None
         (with_outPage None (with_inPage None (with_tree t2 s1))))
  | _, _ => (Throw TypeError, s1)
  end.

(** The state after the listener [h] has removed itself and marked its leg
    as complete, before [_onAnimationEnd] is called. *)
Definition legDone (h : Listener) (s : State) : State :=
  match h with
  | InAnimationBound =>
      match _inPage s with
      | Some i =>
          with_inAnimationEnded true
            (with_tree (alter (removeEventListener InAnimationBound) i (tree s)) s)
      | None => s
      end
  | OutAnimationBound =>
      match _outPage s with
      | Some j =>
          with_outAnimationEnded true
            (with_tree (alter (removeEventListener OutAnimationBound) j (tree s)) s)
      | None => s
      end
  end.

Definition legEnded (h : Listener) (s : State) : bool :=
  match h with
  | InAnimationBound => _inAnimationEnded s
  | OutAnimationBound => _outAnimationEnded s
  end.

Definition legPage (h : Listener) (s : State) : option nat :=
  match h with
  | InAnimationBound => _inPage s
  | OutAnimationBound => _outPage s
  end.

Definition otherLeg (h : Listener) : Listener :=
  match h with
  | InAnimationBound => OutAnimationBound
  | OutAnimationBound => InAnimationBound
  end.

(** [p] is the first element in document order whose attribute [name] has
    the value [value]. *)
Definition firstWith (name value : string) (t : Tree) (p : nat) : Prop :=
  (∃ e, t !! p = Some e ∧ getAttribute name e = Some value) ∧
  ∀ q e, (q < p)%nat → t !! q = Some e → getAttribute name e ≠ Some value.

Definition lookAt (n : nat) (t : Tree) : option (gmap string string * list string) :=
  look <$> t !! n.

Definition classesAt (n : nat) (t : Tree) : list string :=
  match t !! n with
  | Some e => classList e
  | None => []
  end.

(** The actions of [acts] all happen while a transition is under way: the
    instance is animating before each of them. *)
Fixpoint duringTransition (acts : list Action) (s : State) : Prop :=
  match acts with
  | [] => True
  | a :: acts' => _animating s = true ∧ duringTransition acts' (step a s)
  end.

(** The listeners the private state accounts for on the element [n]. *)
Definition expectedListeners (s : State) (n : nat) : list Listener :=
  if _animating s then
    if decide (_inPage s = Some n) then
      if _inAnimationEnded s then [] else [InAnimationBound]
    else if decide (_outPage s = Some n) then
      if _outAnimationEnded s then [] else [OutAnimationBound]
    else []
  else [].

(** The invariant of the orchestrator. *)
Record Inv (s : State) : Prop := mkInv {
  inv_listeners : ∀ n, listenersAt n (tree s) = expectedListeners s n;
  inv_idle : _animating s = false →
    _inAnimationEnded s = false ∧ _outAnimationEnded s = false;
  inv_pages : _animating s = true →
    ∃ i, _inPage s = Some i ∧ _outPage s ≠ Some i;
  inv_legs : _animating s = true →
    _inAnimationEnded s && _outAnimationEnded s = false;
  inv_no_out : _animating s = true → _outPage s = None →
    _outAnimationEnded s = true;
}.

Definition getAttributeOfLook (name : string)
    (l : option (gmap string string * list string)) : option string :=
  match l with
  | Some (a, _) => a !! name
  | None => None
  end.

Definition addClass (c : string) (l : list string) : list string :=
  if decide (c ∈ l) then l else l ++ [c].

(** What starting a transition does to the look of the element [n], given
    the pages and the rule of the transition. *)
Definition startedLook (i : nat) (o : option nat) (r : Rule) (n : nat)
    (l : gmap string string * list string) : gmap string string * list string :=
  if decide (n = i) then (<["active" := "true"]> l.1, addClass (rule_in r) l.2)
  else if decide (o = Some n) then (l.1, addClass (rule_out r) l.2)
  else l.

(** While [attrForSelected] is not set, [_selected] is [undefined] or a
    non-negative integer: the lookup [this.children[this._selected]] is by
    index. *)
Definition indexSelected (s : State) : Prop :=
  attrIsSet s = false →
  _selected s = JsUndefined ∨ ∃ z, (0 ≤ z)%Z ∧ _selected s = JsInteger z.

(** What settling does to the look of the element [n], given the pages and
    the rule of the transition. *)
Definition settledLook (i : nat) (o : option nat) (r : Rule) (n : nat)
    (l : gmap string string * list string) : gmap string string * list string :=
  if decide (n = i) then (l.1, filter (λ x, x ≠ rule_in r) l.2)
  else if decide (o = Some n)
  then (delete "active" l.1, filter (λ x, x ≠ rule_out r) l.2)
  else l.

(** *** The constructor's choice of the animation-finished event *)

(** The table of the constructor: a style property and the event a browser
    that has it fires, in the order the loop visits them. *)
Definition animations : list (string * string) :=
  [("animation", "animationend");
   ("OAnimation", "oAnimationEnd");
   ("MozAnimation", "animationend");
   ("WebkitAnimation", "webkitAnimationEnd")].

(** The loop of the constructor over a table: the event of the first
    property [a] with [this.style[a] !== undefined], which [style a] tells;
    [None] is [_animationEvent] left [undefined]. *)
Fixpoint firstSupported (style : string → bool) (table : list (string * string))
    : option string :=
  match table with
  | [] => None
  | (a, event) :: table' =>
      if style a then Some event else firstSupported style table'
  end.

Definition _animationEvent (style : string → bool) : option string :=
  firstSupported style animations.

(** *** Vocabulary of the further properties *)

(** The kind of value [_selected] holds, by [attrForSelected]. *)
Definition selectedKind (s : State) : Prop :=
  match _selected s with
  | JsUndefined => True
  | JsInteger z => attrIsSet s = false ∧ (0 ≤ z)%Z
  | JsString _ | JsNull => attrIsSet s = true
  | _ => False
  end.

(** What no method changes: the two public properties, the number of
    elements, which of them are children, and every attribute other than
    [active]. *)
Definition sameStructure (s s' : State) : Prop :=
  animationClasses s' = animationClasses s ∧
  attrForSelected s' = attrForSelected s ∧
  length (tree s') = length (tree s) ∧
  children (tree s') = children (tree s) ∧
  ∀ name n, name ≠ "active" →
    getAttribute name <$> tree s' !! n = getAttribute name <$> tree s !! n.




End HeliumAnimatedPages.

Import HeliumAnimatedPages.

(** ** The page of the demo that drives the element *)

Module Demo.


End Demo.

(** ** The demo pages *)

Module Examples.

Definition page (name : string) : Element :=
  mkElement true {[ "name" := name ]} [] [].

(** A child that carries no attribute. *)
Definition slide : Element := mkElement true ∅ [] [].

(** An element nested inside a page. *)
Definition inner (name : string) : Element :=
  mkElement false {[ "name" := name ]} [] [].

Definition fade : Rule := mkRule "page-fadeIn" "page-fadeOut".

(** [demo/demo-element.js]: six named pages and a default rule. *)
Definition mainAnimationClasses : gmap string Rule := {[ "default" := fade ]}.

Definition main : State :=
  construct (Some mainAnimationClasses) (Some "name")
    (page <$> ["noattr"; "prevnext"; "property"; "page1"; "page2"; "page3"]).


(** [demo/noattr-demo.js]: two slides selected by index, and no default
    rule. *)
Definition noattrAnimationClasses : gmap string Rule :=
  {[ "*_1" := mkRule "page-rotatePullRight" "page-rotatePushLeft";
     "*_0" := mkRule "page-rotatePullLeft" "page-rotatePushRight" ]}.

Definition noattr : State :=
  construct (Some noattrAnimationClasses) None [slide; slide].

(** The slides of [noattr] with a third one added, which no rule covers. *)
Definition threeSlides : State :=
  construct (Some noattrAnimationClasses) None [slide; slide; slide].



(** A page whose content carries the name of a later page. *)
Definition nestedPages : State :=
  construct (Some mainAnimationClasses) (Some "name")
    [page "page1"; inner "page2"; page "page2"].

(** [main] after its first page has been shown, and then on its way to the
    next one. *)
Definition onPage1 : State :=
  run [Select (JsString "page1"); AnimationEnd 3%nat] main.

Definition toPage2 : State := (select (JsString "page2") onPage1).2.

End Examples.

(** ** Facts about the DOM store *)

Lemma childrenFrom_bounds pos t n :
  n ∈ childrenFrom pos t →
  (pos ≤ n < pos + length t)%nat ∧
  ∃ e, t !! (n - pos)%nat = Some e ∧ isChild e = true.
Proof.
  revert pos. induction t as [|e t IH]; intros pos; simpl.
  - intros H. by apply elem_of_nil in H.
  - destruct (isChild e) eqn:He.
    + rewrite elem_of_cons. intros [-> | H].
      * split; [lia|]. exists e. by rewrite Nat.sub_diag.
      * destruct (IH _ H) as [Hb (e' & He' & Hc)]. split; [lia|].
        exists e'. split; [|done].
        replace (n - pos)%nat with (S (n - S pos)) by lia. done.
    + intros H. destruct (IH _ H) as [Hb (e' & He' & Hc)]. split; [lia|].
      exists e'. split; [|done].
      replace (n - pos)%nat with (S (n - S pos)) by lia. done.
Qed.

Lemma children_lookup_lt t k p :
  children t !! k = Some p → (p < length t)%nat.
Proof.
  intros H. apply list_elem_of_lookup_2 in H.
  apply childrenFrom_bounds in H. lia.
Qed.

Lemma children_isChild t k p :
  children t !! k = Some p → ∃ e, t !! p = Some e ∧ isChild e = true.
Proof.
  intros H. apply list_elem_of_lookup_2 in H.
  apply childrenFrom_bounds in H as [_ (e & He & Hc)].
  rewrite Nat.sub_0_r in He. eauto.
Qed.

Lemma childrenFrom_ext pos t t' :
  isChild <$> t = isChild <$> t' → childrenFrom pos t = childrenFrom pos t'.
Proof.
  revert pos t'. induction t as [|e t IH]; intros pos [|e' t'] H; simplify_eq/=; [done|].
  rewrite (IH (S pos) t'); [|done]. by replace (isChild e') with (isChild e).
Qed.

Lemma children_alter f n t :
  (∀ e, isChild (f e) = isChild e) → children (alter f n t) = children t.
Proof.
  intros Hf. apply childrenFrom_ext.
  apply list_eq; intros i. rewrite !list_lookup_fmap.
  destruct (decide (i = n)) as [->|Hne].
  - rewrite list_lookup_alter_eq. destruct (t !! n); simpl; [|done]. by rewrite Hf.
  - by rewrite list_lookup_alter_ne.
Qed.

Lemma childrenFrom_NoDup pos t : NoDup (childrenFrom pos t).
Proof.
  revert pos. induction t as [|e t IH]; intros pos; simpl; [constructor|].
  destruct (isChild e); [|apply IH].
  constructor; [|apply IH].
  intros Hn. apply childrenFrom_bounds in Hn. lia.
Qed.

Lemma children_NoDup t : NoDup (children t).
Proof. apply childrenFrom_NoDup. Qed.

Lemma indexOf_lookup ch i p :
  NoDup ch → ch !! i = Some p → indexOf ch (Some p) = Z.of_nat i.
Proof.
  intros Hnd Hi. unfold indexOf.
  destruct (list_find (λ c, c = p) ch) as [[j x]|] eqn:Hf.
  - apply list_find_Some in Hf as (Hj & -> & _).
    by rewrite (NoDup_lookup _ _ _ _ Hnd Hj Hi).
  - apply list_find_None in Hf. rewrite Forall_forall in Hf.
    exfalso. eapply Hf; [|done]. by eapply list_elem_of_lookup_2.
Qed.

Lemma querySelector_firstWith name value t p :
  querySelector name value t = Some p ↔ firstWith name value t p.
Proof.
  unfold querySelector, firstWith. split.
  - destruct (list_find _ t) as [[i e]|] eqn:Hf; intros H; simplify_eq/=.
    apply list_find_Some in Hf as (He & Hv & Hmin). split; [eauto|].
    intros q e' Hq He'. by eapply Hmin.
  - intros [(e & He & Hv) Hmin].
    assert (list_find (λ e, getAttribute name e = Some value) t = Some (p, e)) as ->; [|done].
    apply list_find_Some. split_and!; [done..|].
    intros j y Hy Hj. by eapply Hmin.
Qed.

Lemma querySelector_lt name value t p :
  querySelector name value t = Some p → (p < length t)%nat.
Proof.
  intros [(e & He & _) _]%querySelector_firstWith. by eapply lookup_lt_Some.
Qed.


(** ** The methods, case by case *)

Ltac method :=
  unfold set_selected, select, selectNext, selectPrevious, _beginAnimation,
    _onAnimationEnd, _inAnimation, _outAnimation, _isStringMode, handleEvent,
    onElement, deref, assign, throw, this, mbind, M_bind, mret, M_ret;
  cbn.

Lemma isStringMode_state next s : (_isStringMode next s).2 = s.
Proof.
  destruct next as [| |b|z|x|x|x]; method; try done. by destruct (Z.leb 0 z).
Qed.

Lemma beginAnimation_begun s i :
  _inPage s = Some i → _beginAnimation s = begun i s.
Proof.
  destruct s as [ac attr t sel an ie oe ip op cc]; cbn. intros ->.
  unfold begun. method. destruct op as [j|], cc as [r|]; reflexivity.
Qed.

Lemma set_selected_selecting next table s :
  animationClasses s = Some table → _animating s = false →
  set_selected next s = selecting next table s.
Proof.
  intros Hac Han.
  unfold selecting, set_selected, mbind, M_bind, this, assign, throw, mret, M_ret.
  rewrite Hac, Han.
  pose proof (isStringMode_state next s) as Hs.
  destruct (_isStringMode next s) as [[sm|e] s0]; simpl in Hs; subst s0;
    cbn [fst]; [|reflexivity].
  destruct (sm && negb (attrIsSet s)); [reflexivity|].
  cbn [_inPage _outPage with_inPage with_outPage].
  destruct (resolve sm next s) as [i|] eqn:Hr; [|reflexivity].
  destruct (decide _); [reflexivity|].
  by apply beginAnimation_begun.
Qed.

Lemma set_selected_unset next s :
  animationClasses s = None →
  set_selected next s = (Throw (Error "animationClasses must be defined"), s).
Proof.
  intros Hac. unfold set_selected, mbind, M_bind, this, throw. by rewrite Hac.
Qed.

Lemma set_selected_animating next table s :
  animationClasses s = Some table → _animating s = true →
  set_selected next s = (Return tt, s).
Proof.
  intros Hac Han. unfold set_selected, mbind, M_bind, this, mret, M_ret.
  by rewrite Hac, Han.
Qed.

Lemma onAnimationEnd_settling s :
  _onAnimationEnd s =
    if _inAnimationEnded s && _outAnimationEnded s then settling s
    else (Return tt, s).
Proof.
  destruct s as [ac attr t sel an ie oe ip op cc].
  unfold settling. method.
  destruct ie, oe; cbn; try reflexivity.
  destruct ip as [i|], cc as [r|]; cbn; try reflexivity.
  destruct op as [j|]; reflexivity.
Qed.

Lemma inAnimation_eq s i :
  _inPage s = Some i →
  _inAnimation s =
    _onAnimationEnd
      (with_inAnimationEnded true
         (with_tree (alter (removeEventListener InAnimationBound) i (tree s)) s)).
Proof.
  intros Hi. unfold _inAnimation, mbind, M_bind, this, deref, onElement, assign, mret, M_ret.
  by rewrite Hi.
Qed.

Lemma outAnimation_eq s j :
  _outPage s = Some j →
  _outAnimation s =
    _onAnimationEnd
      (with_outAnimationEnded true
         (with_tree (alter (removeEventListener OutAnimationBound) j (tree s)) s)).
Proof.
  intros Hj. unfold _outAnimation, mbind, M_bind, this, deref, onElement, assign, mret, M_ret.
  by rewrite Hj.
Qed.

(** ** The transition rule matcher *)



Lemma begun_fields i s :
  let s' := (begun i s).2 in
  _animating s' = true ∧ _inPage s' = _inPage s ∧ _outPage s' = _outPage s ∧
  _currentClasses s' = _currentClasses s ∧ _selected s' = _selected s ∧
  animationClasses s' = animationClasses s ∧ attrForSelected s' = attrForSelected s ∧
  _inAnimationEnded s' = _inAnimationEnded s.
Proof.
  unfold begun. destruct (_outPage s) eqn:Ho, (_currentClasses s) eqn:Hc; cbn; by rewrite ?Ho, ?Hc.
Qed.

(** How a call of the setter on an idle instance can leave it animating. *)
Lemma selecting_started next table s out s' :
  _animating s = false →
  selecting next table s = (out, s') →
  _animating s' = true →
  ∃ stringMode i,
    (_isStringMode next s).1 = Return stringMode ∧
    (stringMode = true → attrIsSet s = true) ∧
    resolve stringMode next s = Some i ∧
    selectedItem s ≠ Some i ∧
    (out, s') = begun i (prepared next table stringMode i s).
Proof.
  intros Han. unfold selecting.
  destruct (_isStringMode next s).1 as [sm|e]; [|intros [= <- <-]; congruence].
  destruct (sm && negb (attrIsSet s)) eqn:Hattr; [intros [= <- <-]; congruence|].
  destruct (resolve sm next s) as [i|] eqn:Hr; [|intros [= <- <-]; cbn; congruence].
  case_decide as Hsame; [intros [= <- <-]; cbn; congruence|].
  intros Hb _. exists sm, i. split_and!; [done| |done|congruence|done].
  intros ->. cbn in Hattr. by destruct (attrIsSet s).
Qed.

(** ** Listeners and looks under the DOM calls *)

Lemma listenersAt_alter f m t n :
  listenersAt n (alter f m t) =
    if decide (m = n) then
      match t !! n with Some e => listeners (f e) | None => [] end
    else listenersAt n t.
Proof.
  unfold listenersAt. rewrite list_lookup_alter.
  case_decide; [subst|done]. by destruct (t !! n).
Qed.

Lemma listenersAt_alter_keep f m t n :
  (∀ e, listeners (f e) = listeners e) →
  listenersAt n (alter f m t) = listenersAt n t.
Proof.
  intros Hf. rewrite listenersAt_alter. case_decide; [|done].
  unfold listenersAt. destruct (t !! n); by rewrite ?Hf.
Qed.

Lemma lookAt_alter f m t n :
  lookAt n (alter f m t) =
    if decide (m = n) then (look ∘ f) <$> t !! n else lookAt n t.
Proof.
  unfold lookAt. rewrite list_lookup_alter.
  case_decide; [subst|done]. by destruct (t !! n).
Qed.

Lemma lookAt_alter_keep f m t n :
  (∀ e, look (f e) = look e) → lookAt n (alter f m t) = lookAt n t.
Proof.
  intros Hf. rewrite lookAt_alter. case_decide; [|done].
  unfold lookAt. destruct (t !! n); cbn; by rewrite ?Hf.
Qed.

Lemma resolve_lt stringMode next s i :
  resolve stringMode next s = Some i → (i < length (tree s))%nat.
Proof.
  unfold resolve, childrenAt. destruct stringMode.
  - apply querySelector_lt.
  - destruct next as [| |b|z|x|x|x]; try done.
    destruct (Z.leb 0 z); [|done]. apply children_lookup_lt.
Qed.

Lemma selectedItem_lt s j :
  selectedItem s = Some j → (j < length (tree s))%nat.
Proof.
  unfold selectedItem, childrenAt.
  destruct (truthy (_selected s) || isZero (_selected s)); [|done].
  destruct (attrIsSet s).
  - apply querySelector_lt.
  - destruct (_selected s) as [| |b|z|x|x|x]; try done.
    destruct (Z.leb 0 z); [|done]. apply children_lookup_lt.
Qed.

(** ** The invariant of the orchestrator *)

Lemma Inv_construct classes attr t :
  Forall (λ e, listeners e = []) t → Inv (construct classes attr t).
Proof.
  intros Hq. split; cbn; try done.
  intros n. unfold listenersAt, expectedListeners. cbn.
  destruct (t !! n) as [e|] eqn:E; [|done].
  rewrite Forall_forall in Hq. apply Hq. by eapply list_elem_of_lookup_2.
Qed.

Lemma Inv_idle_quiet s n :
  Inv s → _animating s = false → listenersAt n (tree s) = [].
Proof.
  intros [Hl _ _ _ _] Han. rewrite Hl. unfold expectedListeners. by rewrite Han.
Qed.

Lemma Inv_begun i s :
  Inv s → _animating s = false →
  _inPage s = Some i → _outPage s ≠ Some i →
  (i < length (tree s))%nat →
  (∀ j, _outPage s = Some j → (j < length (tree s))%nat) →
  Inv (begun i s).2.
Proof.
  intros HI Han Hi Hne Hlt Hout.
  pose proof (λ n, Inv_idle_quiet s n HI Han) as Hq.
  destruct (inv_idle s HI Han) as [Hie Hoe].
  destruct (lookup_lt_is_Some_2 _ _ Hlt) as [ei Hei].
  pose proof (Hq i) as Hqi. unfold listenersAt in Hqi. rewrite Hei in Hqi.
  unfold begun.
  destruct (_outPage s) as [j|] eqn:Ho.
  - destruct (lookup_lt_is_Some_2 _ _ (Hout j eq_refl)) as [ej Hej].
    pose proof (Hq j) as Hqj. unfold listenersAt in Hqj. rewrite Hej in Hqj.
    assert (i ≠ j) as Hij by congruence.
    assert (∀ n, listenersAt n
              (alter (addEventListener OutAnimationBound) j
                 (alter (addEventListener InAnimationBound) i (tree s))) =
            if decide (Some i = Some n) then [InAnimationBound]
            else if decide (Some j = Some n) then [OutAnimationBound] else []) as Hls.
    { intros n. rewrite !listenersAt_alter.
      repeat case_decide; simplify_eq;
        rewrite ?list_lookup_alter_ne by done; rewrite ?Hej, ?Hei; cbn;
        rewrite ?Hqi, ?Hqj; done. }
    destruct (_currentClasses s) as [r|] eqn:Hc; cbn;
      (split; cbn; rewrite ?Hi, ?Ho, ?Hie, ?Hoe; try done;
       try (intros n; rewrite ?listenersAt_alter_keep by done; apply Hls);
       eauto).
  - assert (∀ n, listenersAt n
              (alter (addEventListener InAnimationBound) i (tree s)) =
            if decide (Some i = Some n) then [InAnimationBound] else []) as Hls.
    { intros n. rewrite !listenersAt_alter.
      repeat case_decide; simplify_eq; try rewrite Hei; cbn;
        rewrite ?Hqi; first [done | apply Hq]. }
    destruct (_currentClasses s) as [r|] eqn:Hc; cbn;
      (split; cbn; rewrite ?Hi, ?Ho, ?Hie, ?Hoe; try done;
       try (intros n; rewrite ?listenersAt_alter_keep by done; rewrite Hls;
            by repeat case_decide);
       eauto).
Qed.

Lemma Inv_idle_ext s s' :
  Inv s → _animating s = false →
  tree s' = tree s → _animating s' = false →
  _inAnimationEnded s' = _inAnimationEnded s →
  _outAnimationEnded s' = _outAnimationEnded s →
  Inv s'.
Proof.
  intros HI Han Ht Han' Hie Hoe.
  split; rewrite ?Han', ?Hie, ?Hoe; try done.
  - intros n. rewrite Ht, (Inv_idle_quiet s n HI Han).
    unfold expectedListeners. by rewrite Han'.
  - intros _. by apply (inv_idle s HI).
Qed.

Lemma Inv_set_selected next s : Inv s → Inv (set_selected next s).2.
Proof.
  intros HI.
  destruct (animationClasses s) as [table|] eqn:Hac;
    [|by rewrite set_selected_unset].
  destruct (_animating s) eqn:Han;
    [by rewrite (set_selected_animating _ table)|].
  rewrite (set_selected_selecting _ table) by done. unfold selecting.
  destruct (_isStringMode next s).1 as [sm|e]; [|done].
  destruct (sm && negb (attrIsSet s)); [done|].
  destruct (resolve sm next s) as [i|] eqn:Hr;
    [|by apply (Inv_idle_ext s)].
  case_decide as Hsame; [by apply (Inv_idle_ext s)|].
  apply Inv_begun; cbn -[selectedItem]; try done.
  - by apply (Inv_idle_ext s).
  - by eapply resolve_lt.
  - intros j. apply selectedItem_lt.
Qed.

Lemma handleEvent_legDone h s :
  legPage h s ≠ None → handleEvent h s = _onAnimationEnd (legDone h s).
Proof.
  destruct h; unfold legPage, handleEvent.
  - destruct (_inPage s) as [i|] eqn:Hi; [|done]. intros _.
    rewrite (inAnimation_eq s i Hi). unfold legDone. by rewrite Hi.
  - destruct (_outPage s) as [j|] eqn:Hj; [|done]. intros _.
    rewrite (outAnimation_eq s j Hj). unfold legDone. by rewrite Hj.
Qed.

Lemma expectedListeners_cases s n :
  expectedListeners s n = [] ∨
  ∃ h, expectedListeners s n = [h] ∧ _animating s = true ∧
       legPage h s = Some n ∧ legEnded h s = false.
Proof.
  unfold expectedListeners.
  destruct (_animating s); [|by left].
  case_decide.
  - destruct (_inAnimationEnded s) eqn:E; [by left|].
    right. by exists InAnimationBound.
  - case_decide; [|by left].
    destruct (_outAnimationEnded s) eqn:E; [by left|].
    right. by exists OutAnimationBound.
Qed.

(** Under the invariant an event reaches at most one listener. *)
Lemma dispatch_cases target s :
  Inv s →
  (dispatchAnimationEnd target s = (s, []) ∧ expectedListeners s target = []) ∨
  ∃ h, dispatchAnimationEnd target s = ((_onAnimationEnd (legDone h s)).2, [h]) ∧
       _animating s = true ∧ legPage h s = Some target ∧ legEnded h s = false.
Proof.
  intros HI. unfold dispatchAnimationEnd.
  destruct (expectedListeners_cases s target) as [E|(h & E & Han & Hp & He)].
  - left. by rewrite (inv_listeners s HI), E.
  - right. exists h. rewrite (inv_listeners s HI), E. cbn.
    rewrite (inv_listeners s HI), E.
    rewrite decide_True by set_solver.
    rewrite handleEvent_legDone by congruence. done.
Qed.

Lemma legDone_listeners h s n :
  Inv s → _animating s = true → legPage h s ≠ None → legEnded h s = false →
  listenersAt n (tree (legDone h s)) = expectedListeners (legDone h s) n.
Proof.
  intros HI Han Hp He.
  destruct (inv_pages s HI Han) as (i & Hi & Hne).
  pose proof (inv_listeners s HI) as Hl.
  destruct h; cbn in *.
  - rewrite Hi. cbn. rewrite listenersAt_alter.
    unfold expectedListeners; cbn. rewrite Han, Hi.
    case_decide as E; simplify_eq.
    + rewrite decide_True by done.
      specialize (Hl n). unfold listenersAt, expectedListeners in Hl.
      rewrite Han, Hi, He, decide_True in Hl by done.
      destruct (tree s !! n) as [e|]; [|done]. cbn. by rewrite Hl.
    + rewrite decide_False by congruence.
      rewrite Hl. unfold expectedListeners. rewrite Han, Hi.
      by rewrite decide_False by congruence.
  - destruct (_outPage s) as [j|] eqn:Hj; [|done]. cbn. rewrite listenersAt_alter.
    unfold expectedListeners; cbn. rewrite Han, Hi, Hj.
    assert (i ≠ j) by congruence.
    case_decide as E; simplify_eq.
    + rewrite decide_False by congruence. rewrite decide_True by done.
      specialize (Hl n). unfold listenersAt, expectedListeners in Hl.
      rewrite Han, Hi, Hj, He, decide_False, decide_True in Hl by congruence.
      destruct (tree s !! n) as [e|]; [|done]. cbn. by rewrite Hl.
    + rewrite Hl. unfold expectedListeners. rewrite Han, Hi, Hj.
      case_decide; [done|]. by rewrite !decide_False by congruence.
Qed.

Lemma legDone_fields h s :
  legPage h s ≠ None →
  _animating (legDone h s) = _animating s ∧
  _inPage (legDone h s) = _inPage s ∧
  _outPage (legDone h s) = _outPage s ∧
  _currentClasses (legDone h s) = _currentClasses s ∧
  _selected (legDone h s) = _selected s ∧
  legEnded h (legDone h s) = true ∧
  legEnded (otherLeg h) (legDone h s) = legEnded (otherLeg h) s ∧
  ∀ n, lookAt n (tree (legDone h s)) = lookAt n (tree s).
Proof.
  destruct h; cbn.
  - destruct (_inPage s) as [i|] eqn:Hi; [|done]. intros _. cbn.
    split_and!; try done. intros n. by apply lookAt_alter_keep.
  - destruct (_outPage s) as [j|] eqn:Hj; [|done]. intros _. cbn.
    split_and!; try done. intros n. by apply lookAt_alter_keep.
Qed.

Lemma both_legs h s :
  _inAnimationEnded s && _outAnimationEnded s =
  legEnded h s && legEnded (otherLeg h) s.
Proof. destruct h; cbn; [done|apply andb_comm]. Qed.

Lemma Inv_legDone h s :
  Inv s → _animating s = true → legPage h s ≠ None → legEnded h s = false →
  legEnded (otherLeg h) s = false →
  Inv (legDone h s).
Proof.
  intros HI Han Hp He Ho.
  destruct (legDone_fields h s Hp) as (Ea & Ei & Eo & Ec & Es & Eh & Eoth & _).
  split.
  - intros n. by apply legDone_listeners.
  - rewrite Ea. congruence.
  - rewrite Ea, Ei, Eo. apply (inv_pages s HI).
  - intros _. rewrite (both_legs h), Eh, Eoth, Ho. done.
  - rewrite Ea, Eo. intros _ Hnone.
    pose proof (inv_no_out s HI Han Hnone) as Hout.
    destruct h; cbn in *; congruence.
Qed.

Lemma settling_fields s :
  let s' := (settling s).2 in
  _animating s' = false ∧ _inAnimationEnded s' = false ∧
  _outAnimationEnded s' = false ∧ _selected s' = _selected s ∧
  ∀ n, listenersAt n (tree s') = listenersAt n (tree s).
Proof.
  unfold settling.
  destruct (_inPage s) as [i|], (_currentClasses s) as [r|]; cbn; try done.
  split_and!; try done. intros n.
  destruct (_outPage s); by rewrite ?listenersAt_alter_keep by done.
Qed.

Lemma Inv_settling h s :
  Inv s → _animating s = true → legPage h s ≠ None → legEnded h s = false →
  legEnded (otherLeg h) s = true →
  Inv (settling (legDone h s)).2.
Proof.
  intros HI Han Hp He Ho.
  destruct (legDone_fields h s Hp) as (Ea & Ei & Eo & Ec & Es & Eh & Eoth & _).
  destruct (settling_fields (legDone h s)) as (Sa & Sie & Soe & _ & Sl).
  split; rewrite ?Sa; try done.
  intros n. rewrite Sl, legDone_listeners by done.
  unfold expectedListeners. rewrite Sa, Ea, Han.
  assert (_inAnimationEnded (legDone h s) = true ∧
          _outAnimationEnded (legDone h s) = true) as [-> ->].
  { destruct h; cbn in *; split; congruence. }
  by repeat case_decide.
Qed.

Lemma Inv_onAnimationEnd_legDone h s :
  Inv s → _animating s = true → legPage h s ≠ None → legEnded h s = false →
  Inv (_onAnimationEnd (legDone h s)).2.
Proof.
  intros HI Han Hp He.
  destruct (legDone_fields h s Hp) as (Ea & Ei & Eo & Ec & Es & Eh & Eoth & _).
  rewrite onAnimationEnd_settling, (both_legs h), Eh, Eoth. cbn.
  destruct (legEnded (otherLeg h) s) eqn:Ho.
  - by apply Inv_settling.
  - by apply Inv_legDone.
Qed.

Lemma selectNext_cases s :
  selectNext s = (Throw (Error "This component has no children to animate"), s) ∨
  ∃ k, selectNext s = set_selected (JsInteger k) s.
Proof.
  unfold selectNext, mbind, M_bind, this, throw.
  case_decide; [by left|right]. eauto.
Qed.

Lemma selectPrevious_cases s :
  selectPrevious s = (Throw (Error "This component has no children to animate"), s) ∨
  ∃ k, selectPrevious s = set_selected (JsInteger k) s.
Proof.
  unfold selectPrevious, mbind, M_bind, this, throw.
  case_decide; [by left|right]. eauto.
Qed.

Lemma Inv_step a s : Inv s → Inv (step a s).
Proof.
  intros HI. destruct a as [next| | |target]; cbn.
  - by apply Inv_set_selected.
  - destruct (selectNext_cases s) as [-> | [k ->]]; [done|].
    by apply Inv_set_selected.
  - destruct (selectPrevious_cases s) as [-> | [k ->]]; [done|].
    by apply Inv_set_selected.
  - destruct (dispatch_cases target s HI) as [[-> _]|(h & -> & Han & Hp & He)];
      [done|]. cbn. apply Inv_onAnimationEnd_legDone; congruence.
Qed.

Lemma reachable_Inv s : reachable s → Inv s.
Proof.
  induction 1 as [classes attr t Hq | a s _ IH].
  - by apply Inv_construct.
  - by apply Inv_step.
Qed.

(** ** One action while a transition is under way *)

Lemma busy_set_selected next s :
  _animating s = true → (set_selected next s).2 = s.
Proof.
  intros Han. destruct (animationClasses s) as [table|] eqn:Hac.
  - by rewrite (set_selected_animating _ table).
  - by rewrite set_selected_unset.
Qed.

Lemma busy_step a s :
  Inv s → _animating s = true →
  (step a s = s ∧ fired a s = []) ∨
  ∃ h, fired a s = [h] ∧ legPage h s ≠ None ∧ legEnded h s = false ∧
       step a s =
         if legEnded (otherLeg h) s then (settling (legDone h s)).2
         else legDone h s.
Proof.
  intros HI Han. destruct a as [next| | |target]; cbn.
  - left. by rewrite busy_set_selected.
  - left. destruct (selectNext_cases s) as [-> | [k ->]]; [done|].
    by rewrite busy_set_selected.
  - left. destruct (selectPrevious_cases s) as [-> | [k ->]]; [done|].
    by rewrite busy_set_selected.
  - destruct (dispatch_cases target s HI) as [[-> _]|(h & -> & _ & Hp & He)];
      [by left|right].
    assert (legPage h s ≠ None) as Hp' by congruence.
    exists h. split_and!; try done. cbn [fst].
    destruct (legDone_fields h s Hp') as (_ & _ & _ & _ & _ & Eh & Eoth & _).
    rewrite onAnimationEnd_settling, (both_legs h), Eh, Eoth.
    by destruct (legEnded (otherLeg h) s).
Qed.

Lemma settling_look s i r n :
  _inPage s = Some i → _currentClasses s = Some r → _outPage s ≠ Some i →
  lookAt n (tree (settling s).2) =
    settledLook i (_outPage s) r n <$> lookAt n (tree s).
Proof.
  intros Hi Hc Hne. unfold settling, settledLook. rewrite Hi, Hc. cbn.
  destruct (_outPage s) as [j|] eqn:Hj.
  - assert (i ≠ j) by congruence.
    rewrite !lookAt_alter. unfold lookAt.
    repeat case_decide; simplify_eq;
      rewrite ?list_lookup_alter_eq; try (rewrite list_lookup_alter_ne by done);
      by destruct (tree s !! _).
  - rewrite !lookAt_alter. unfold lookAt.
    repeat case_decide; simplify_eq; by destruct (tree s !! _).
Qed.

Lemma settling_look_no_rule s n :
  _currentClasses s = None →
  lookAt n (tree (settling s).2) = lookAt n (tree s).
Proof.
  intros Hc. unfold settling. rewrite Hc. by destruct (_inPage s).
Qed.

Lemma listener_cases (h h' : Listener) : h = h' ∨ h = otherLeg h'.
Proof. destruct h, h'; auto. Qed.

Lemma otherLeg_ne h : otherLeg h ≠ h.
Proof. by destruct h. Qed.

(** While one leg is still pending and its listener has not been called,
    the instance keeps animating and no element changes its look. *)
Lemma legs_pending acts : ∀ s h,
  Inv s → _animating s = true →
  legEnded h s = false → h ∉ firedBy acts s →
  Inv (run acts s) ∧ _animating (run acts s) = true ∧
  (∀ n, lookAt n (tree (run acts s)) = lookAt n (tree s)) ∧
  _inPage (run acts s) = _inPage s ∧ _outPage (run acts s) = _outPage s ∧
  _currentClasses (run acts s) = _currentClasses s ∧
  legEnded h (run acts s) = false ∧
  (legEnded (otherLeg h) (run acts s) = true ↔
     legEnded (otherLeg h) s = true ∨ otherLeg h ∈ firedBy acts s).
Proof.
  induction acts as [|a acts IH]; intros s h HI Han He Hnf; cbn in *.
  - split_and!; try done. split; [by left|]. intros [?|H]; [done|].
    by apply elem_of_nil in H.
  - destruct (busy_step a s HI Han) as [[Es Ef]|(h' & Ef & Hp & He' & Es)].
    + rewrite Es, Ef in *. cbn in *. by apply IH.
    + rewrite Ef in *. cbn in *.
      apply not_elem_of_cons in Hnf as [Hne Hnf].
      destruct (listener_cases h h') as [-> | ->]; [done|].
      assert (h' = otherLeg (otherLeg h')) as Hoo by (by destruct h').
      rewrite He in Es. rewrite Es in *.
      destruct (legDone_fields h' s Hp) as (Ea & Ei & Eo & Ec & _ & Eh & Eoth & El).
      assert (Inv (legDone h' s)) as HI' by (by apply Inv_legDone).
      destruct (IH (legDone h' s) (otherLeg h') HI') as
        (HI2 & Han2 & Hl2 & Hi2 & Ho2 & Hc2 & He2 & Hoth2); try congruence.
      split_and!; try congruence.
      rewrite Hoth2. rewrite <- !Hoo. rewrite Eh. split; [intros _|by left].
      right. apply elem_of_cons. by left.
Qed.

Lemma firedBy_app acts acts' s :
  firedBy (acts ++ acts') s = (firedBy acts s ++ firedBy acts' (run acts s))%list.
Proof.
  revert s. induction acts as [|a acts IH]; intros s; cbn; [done|].
  by rewrite IH, app_assoc.
Qed.

Lemma run_app acts acts' s : run (acts ++ acts') s = run acts' (run acts s).
Proof. revert s. induction acts as [|a acts IH]; intros s; cbn; [done|apply IH]. Qed.

(** The action in which the last pending leg completes settles the
    transition. *)
Lemma legs_complete a s :
  Inv s → _animating s = true →
  (∀ h, legEnded h s = true ∨ h ∈ fired a s) →
  _animating (step a s) = false.
Proof.
  intros HI Han Hall.
  destruct (busy_step a s HI Han) as [[Es Ef]|(h' & Ef & Hp & He' & Es)].
  - rewrite Ef in Hall.
    pose proof (inv_legs s HI Han) as Hl.
    destruct (Hall InAnimationBound) as [Hin|H]; [|by apply elem_of_nil in H].
    destruct (Hall OutAnimationBound) as [Hout|H]; [|by apply elem_of_nil in H].
    cbn in *. by rewrite Hin, Hout in Hl.
  - rewrite Ef in Hall.
    destruct (Hall (otherLeg h')) as [Ho|H].
    + rewrite Ho in Es. rewrite Es. apply settling_fields.
    + apply list_elem_of_singleton in H. by apply otherLeg_ne in H.
Qed.

(** ** The rule matcher and the two legs of a transition *)



(** A call of the setter that leaves an idle instance animating has gone
    through [_beginAnimation]. *)
Lemma select_started next s out s' :
  _animating s = false → select next s = (out, s') → _animating s' = true →
  ∃ table stringMode i,
    animationClasses s = Some table ∧
    (_isStringMode next s).1 = Return stringMode ∧
    (stringMode = true → attrIsSet s = true) ∧
    resolve stringMode next s = Some i ∧
    selectedItem s ≠ Some i ∧
    (out, s') = begun i (prepared next table stringMode i s).
Proof.
  intros Han Hsel Han'. unfold select in Hsel.
  destruct (animationClasses s) as [table|] eqn:Hac.
  - rewrite (set_selected_selecting _ table) in Hsel by done.
    destruct (selecting_started _ _ _ _ _ Han Hsel Han')
      as (sm & i & H1 & H2 & H3 & H4 & H5).
    by exists table, sm, i.
  - rewrite set_selected_unset in Hsel by done. congruence.
Qed.

Lemma begun_legs i s :
  _inAnimationEnded s = false → _outAnimationEnded s = false →
  _inAnimationEnded (begun i s).2 = false ∧
  (_outAnimationEnded (begun i s).2 = true ↔ _outPage s = None).
Proof.
  intros Hie Hoe. unfold begun.
  destruct (_outPage s) as [j|], (_currentClasses s) as [r|]; cbn;
    rewrite ?Hie, ?Hoe; split; try done; split; done.
Qed.

(** C2.  Once [_beginAnimation] has started a transition, the instance keeps
    animating and no element changes its classes or attributes for as long
    as one of the two listeners has not been called; the action in which the
    last of them is called settles the transition.  Without a previously
    selected page the outbound leg is complete from the start, and the
    inbound listener alone settles the transition. *)
Theorem transition_settles_after_both_legs
    (s0 : State) (next : JsValue) (out : Outcome unit) (s1 : State) :
  reachable s0 → _animating s0 = false →
  select next s0 = (out, s1) → _animating s1 = true →
  _outPage s1 = selectedItem s0 ∧
  _inAnimationEnded s1 = false ∧
  (_outAnimationEnded s1 = true ↔ selectedItem s0 = None) ∧
  (∀ acts,
     InAnimationBound ∉ firedBy acts s1 ∨
     (selectedItem s0 ≠ None ∧ OutAnimationBound ∉ firedBy acts s1) →
     isAnimating (run acts s1) = true ∧
     ∀ n, lookAt n (tree (run acts s1)) = lookAt n (tree s1)) ∧
  (∀ acts a,
     InAnimationBound ∉ firedBy acts s1 ∨
     (selectedItem s0 ≠ None ∧ OutAnimationBound ∉ firedBy acts s1) →
     InAnimationBound ∈ firedBy (acts ++ [a]) s1 →
     selectedItem s0 = None ∨ OutAnimationBound ∈ firedBy (acts ++ [a]) s1 →
     isAnimating (run (acts ++ [a]) s1) = false).
Proof.
  intros Hreach Han Hsel Han'.
  pose proof (reachable_Inv _ Hreach) as HI0.
  assert (Inv s1) as HI1.
  { replace s1 with (step (Select next) s0); [by apply Inv_step|].
    cbn. by rewrite Hsel. }
  destruct (select_started _ _ _ _ Han Hsel Han')
    as (table & sm & i & Hac & _ & _ & _ & _ & Hb).
  destruct (inv_idle s0 HI0 Han) as [Hie Hoe].
  assert (s1 = (begun i (prepared next table sm i s0)).2) as Hs1
    by by rewrite <- Hb.
  destruct (begun_fields i (prepared next table sm i s0))
    as (_ & _ & Ho & _).
  destruct (begun_legs i (prepared next table sm i s0) Hie Hoe) as [Hie1 Hoe1].
  rewrite <- Hs1 in Ho, Hie1, Hoe1. cbn -[selectedItem] in Ho, Hoe1.
  assert (∀ acts,
     InAnimationBound ∉ firedBy acts s1 ∨
     (selectedItem s0 ≠ None ∧ OutAnimationBound ∉ firedBy acts s1) →
     ∃ h, legEnded h s1 = false ∧ h ∉ firedBy acts s1) as Hpending.
  { intros acts [Hin|[Hsome Hout]].
    - by exists InAnimationBound.
    - exists OutAnimationBound. split; [|done]. cbn.
      destruct (_outAnimationEnded s1); [|done].
      destruct Hoe1 as [Hoe1 _]. by destruct Hsome, Hoe1. }
  split_and!; try done.
  - intros acts Hcond. destruct (Hpending acts Hcond) as (h & He & Hnf).
    destruct (legs_pending acts s1 h HI1 Han' He Hnf) as (_ & Hbusy & Hlook & _).
    done.
  - intros acts a Hcond Hin Hout. unfold isAnimating.
    destruct (Hpending acts Hcond) as (h & He & Hnf).
    destruct (legs_pending acts s1 h HI1 Han' He Hnf)
      as (HI2 & Hbusy & _ & _ & _ & _ & He2 & Hoth).
    rewrite run_app. cbn [run]. apply legs_complete; try done.
    rewrite firedBy_app in Hin, Hout. cbn [firedBy] in Hin, Hout.
    rewrite app_nil_r in Hin, Hout.
    assert (∀ h', legEnded h' s1 = true ∨ h' ∈ firedBy acts s1 ∨
                  h' ∈ fired a (run acts s1)) as Hall.
    { intros [|].
      - right. by apply elem_of_app.
      - destruct Hout as [Hnone|Hout]; [|right; by apply elem_of_app].
        left. cbn. by apply Hoe1. }
    intros h'. destruct (listener_cases h' h) as [-> | ->].
    + destruct (Hall h) as [?|[?|?]]; [congruence|done|by right].
    + destruct (Hall (otherLeg h)) as [?|[?|?]]; [left|left|by right].
      * apply Hoth. by left.
      * apply Hoth. by right.
Qed.

Lemma reachable_run acts s : reachable s → reachable (run acts s).
Proof.
  revert s. induction acts as [|a acts IH]; intros s Hs; cbn; [done|].
  apply IH. by apply reachable_step.
Qed.

Lemma reachable_onPage1 : reachable Examples.onPage1.
Proof.
  apply reachable_run, reachable_construct. repeat constructor.
Qed.

Ltac evaluate :=
  match goal with
  | |- ?P => apply (@bool_decide_unpack P _); vm_compute; exact I
  end.

Lemma transition_settles_after_both_legs_witness :
  isAnimating
    (run [AnimationEnd 4%nat; Select (JsString "page3")] Examples.toPage2) = true ∧
  isAnimating
    (run ([AnimationEnd 4%nat; Select (JsString "page3")] ++ [AnimationEnd 3%nat])
       Examples.toPage2) = false.
Proof.
  destruct (transition_settles_after_both_legs
              Examples.onPage1 (JsString "page2") (Return tt) Examples.toPage2)
    as (_ & _ & _ & Hkeep & Hsettle).
  - exact reachable_onPage1.
  - vm_compute; reflexivity.
  - vm_compute; reflexivity.
  - vm_compute; reflexivity.
  - split.
    + apply Hkeep. right. split; evaluate.
    + apply Hsettle.
      * right. split; evaluate.
      * evaluate.
      * right. evaluate.
Defined.

(** ** What a transition does to the elements *)

Lemma begun_look i s r n :
  _currentClasses s = Some r → _outPage s ≠ Some i →
  (begun i s).1 = Return tt ∧
  lookAt n (tree (begun i s).2) =
    startedLook i (_outPage s) r n <$> lookAt n (tree s).
Proof.
  intros Hc Hne. unfold begun, startedLook. rewrite Hc.
  destruct (_outPage s) as [j|] eqn:Hj; cbn; (split; [done|]).
  - assert (i ≠ j) by congruence.
    rewrite !lookAt_alter. unfold lookAt.
    repeat case_decide; simplify_eq;
      rewrite ?list_lookup_alter_eq; try (rewrite !list_lookup_alter_ne by done);
      rewrite ?list_lookup_alter_eq; try (rewrite !list_lookup_alter_ne by done);
      by destruct (tree s !! _).
  - rewrite !lookAt_alter. unfold lookAt.
    repeat case_decide; simplify_eq;
      rewrite ?list_lookup_alter_eq; try (rewrite !list_lookup_alter_ne by done);
      by destruct (tree s !! _).
Qed.

Lemma begun_look_other i s n :
  n ≠ i → _outPage s ≠ Some n →
  lookAt n (tree (begun i s).2) = lookAt n (tree s).
Proof.
  intros Hi Ho. unfold begun.
  destruct (_outPage s) as [j|] eqn:Hj, (_currentClasses s) as [r|]; cbn;
    rewrite !lookAt_alter; repeat case_decide; simplify_eq; done.
Qed.

Lemma begun_outcome i s :
  (begun i s).1 = Return tt → ∃ r, _currentClasses s = Some r.
Proof.
  unfold begun. destruct (_outPage s), (_currentClasses s) as [r|]; cbn;
    try done; eauto.
Qed.

Lemma duringTransition_idle acts s :
  _animating s = false → duringTransition acts s → acts = [].
Proof. destruct acts; cbn; [done|]. intros ? [? _]. congruence. Qed.

(** A transition, from any of its states to the state an action leaves it
    in: still under way with every look as it was, or settled. *)
Lemma transition_run acts : ∀ s,
  Inv s → _animating s = true → duringTransition acts s →
  (_animating (run acts s) = true ∧
   _inPage (run acts s) = _inPage s ∧ _outPage (run acts s) = _outPage s ∧
   ∀ n, lookAt n (tree (run acts s)) = lookAt n (tree s)) ∨
  (_animating (run acts s) = false ∧
   ∀ n, lookAt n (tree (run acts s)) =
     match _inPage s, _currentClasses s with
     | Some i, Some r => settledLook i (_outPage s) r n <$> lookAt n (tree s)
     | _, _ => lookAt n (tree s)
     end).
Proof.
  induction acts as [|a acts IH]; intros s HI Han Hdur; cbn in *.
  - by left.
  - destruct Hdur as [_ Hdur].
    destruct (busy_step a s HI Han) as [[Es Ef]|(h & Ef & Hp & He & Es)].
    + rewrite Es in *. by apply IH.
    + destruct (legDone_fields h s Hp) as (Ea & Ei & Eo & Ec & _ & Eh & Eoth & El).
      destruct (legEnded (otherLeg h) s) eqn:Hoth.
      * assert (_animating (step a s) = false) as Hidle
          by (rewrite Es; apply settling_fields).
        rewrite (duringTransition_idle _ _ Hidle Hdur). cbn.
        right. split; [done|]. intros n. rewrite Es.
        destruct (inv_pages s HI Han) as (i & Hi & Hne). rewrite Hi.
        destruct (_currentClasses s) as [r|] eqn:Hc.
        -- rewrite (settling_look _ i r) by congruence. by rewrite Eo, El.
        -- rewrite settling_look_no_rule by congruence. apply El.
      * rewrite Es in *.
        assert (Inv (legDone h s)) as HI' by (by apply Inv_legDone).
        assert (_animating (legDone h s) = true) as Han' by congruence.
        destruct (IH (legDone h s) HI' Han' Hdur) as [(Hb & Hi & Ho & Hl)|(Hb & Hl)];
          [left|right].
        -- split_and!; congruence.
        -- split; [done|]. intros n. by rewrite Hl, Ei, Ec, Eo, El.
Qed.







(** The start of a transition, in full: the pages and the rule the setter
    has fixed, and what [_beginAnimation] has done to the elements. *)
Lemma select_started_look next s0 s1 :
  Inv s0 → _animating s0 = false →
  select next s0 = (Return tt, s1) → _animating s1 = true →
  ∃ table prev r i,
    animationClasses s0 = Some table ∧
    _animationClasses next prev table = Some r ∧
    _currentClasses s1 = Some r ∧
    _inPage s1 = Some i ∧ _outPage s1 = selectedItem s0 ∧
    selectedItem s0 ≠ Some i ∧ (i < length (tree s0))%nat ∧
    ∀ n, lookAt n (tree s1) =
           startedLook i (selectedItem s0) r n <$> lookAt n (tree s0).
Proof.
  intros HI Han Hsel Han'.
  destruct (select_started _ _ _ _ Han Hsel Han')
    as (table & sm & i & Hac & _ & _ & Hr & Hne & Hb).
  set (p := prepared next table sm i s0) in *.
  assert (s1 = (begun i p).2) as Hs1 by (by rewrite <- Hb).
  assert ((begun i p).1 = Return tt) as Hout by (by rewrite <- Hb).
  destruct (begun_outcome _ _ Hout) as [r Hc].
  destruct (begun_fields i p) as (_ & Hi & Ho & Hcc & _).
  exists table, (prevOf sm (with_outPage (selectedItem s0) (with_inPage (Some i) s0))), r, i.
  split_and!; try done.
  - rewrite Hs1, Hcc. done.
  - by rewrite Hs1, Hi.
  - by rewrite Hs1, Ho.
  - by eapply resolve_lt.
  - intros n. rewrite Hs1.
    destruct (begun_look i p r n Hc) as [_ ->]; [|done].
    subst p. cbn -[selectedItem]. congruence.
Qed.



Lemma elem_of_expectedListeners h s n :
  h ∈ expectedListeners s n →
  _animating s = true ∧ legPage h s = Some n ∧ legEnded h s = false.
Proof.
  destruct (expectedListeners_cases s n) as [-> | (h' & -> & Han & Hp & He)].
  - intros H. by apply elem_of_nil in H.
  - intros ->%list_elem_of_singleton. done.
Qed.

(** C7.  [_beginAnimation] registers the inbound listener on the inbound
    page and the outbound listener on the outbound page, when there is one,
    and nothing else; a listener that is called is registered nowhere
    afterwards; an instance that is not animating has no listener left on any
    element; and a listener is only ever registered on the page of its leg of
    the transition under way. *)
Theorem listeners_follow_the_transition (s : State) :
  reachable s →
  (∀ next out s1,
     _animating s = false → select next s = (out, s1) → _animating s1 = true →
     ∃ i, _inPage s1 = Some i ∧ _outPage s1 = selectedItem s ∧
          listenersAt i (tree s1) = [InAnimationBound] ∧
          (∀ j, selectedItem s = Some j →
                listenersAt j (tree s1) = [OutAnimationBound]) ∧
          (∀ n, n ≠ i → selectedItem s ≠ Some n → listenersAt n (tree s1) = [])) ∧
  (∀ a h, h ∈ fired a s →
     (∃ n, legPage h s = Some n ∧ h ∈ listenersAt n (tree s)) ∧
     ∀ m, h ∉ listenersAt m (tree (step a s))) ∧
  (_animating s = false → ∀ n, listenersAt n (tree s) = []) ∧
  (∀ n h, h ∈ listenersAt n (tree s) →
     _animating s = true ∧ legPage h s = Some n).
Proof.
  intros Hreach. pose proof (reachable_Inv _ Hreach) as HI.
  split_and!.
  - intros next out s1 Han Hsel Han'.
    assert (Inv s1) as HI1.
    { replace s1 with (step (Select next) s); [by apply Inv_step|].
      cbn. by rewrite Hsel. }
    destruct (select_started _ _ _ _ Han Hsel Han')
      as (table & sm & i & Hac & _ & _ & _ & Hne & Hb).
    destruct (inv_idle s HI Han) as [Hie Hoe].
    set (p := prepared next table sm i s) in *.
    assert (s1 = (begun i p).2) as Hs1 by (by rewrite <- Hb).
    destruct (begun_fields i p) as (_ & Hi & Ho & _).
    destruct (begun_legs i p Hie Hoe) as [Hie1 Hoe1].
    rewrite <- Hs1 in Hi, Ho, Hie1, Hoe1.
    subst p. cbn -[selectedItem] in Hi, Ho, Hoe1.
    pose proof (inv_listeners s1 HI1) as Hl. unfold expectedListeners in Hl.
    rewrite Han', Hi, Ho, Hie1 in Hl.
    exists i. split_and!; try done.
    + rewrite Hl. by rewrite decide_True.
    + intros j Hj. rewrite Hl, Hj. rewrite decide_False by congruence.
      rewrite decide_True by done.
      destruct (_outAnimationEnded s1); [|done].
      destruct Hoe1 as [Hoe1 _]. rewrite Hoe1 in Hj; done.
    + intros n Hni Hno. rewrite Hl. rewrite decide_False by congruence.
      by rewrite decide_False by congruence.
  - intros a h Hf.
    destruct (_animating s) eqn:Han.
    + destruct (busy_step a s HI Han) as [[_ Ef]|(h' & Ef & Hp & He & Es)];
        rewrite Ef in Hf; [by apply elem_of_nil in Hf|].
      apply list_elem_of_singleton in Hf as ->.
      split.
      * destruct (legPage h' s) as [n|] eqn:Hn; [|done]. exists n. split; [done|].
        rewrite (inv_listeners s HI). unfold expectedListeners. rewrite Han.
        destruct (inv_pages s HI Han) as (i & Hi & Hne).
        destruct h'; cbn in *.
        -- rewrite Hn, decide_True, He by done. set_solver.
        -- rewrite Hi, Hn, decide_False, decide_True, He by congruence. set_solver.
      * intros m Hm. pose proof (Inv_step a s HI) as HI'.
        rewrite (inv_listeners _ HI') in Hm.
        apply elem_of_expectedListeners in Hm as (Hb & _ & He').
        rewrite Es in Hb, He'.
        destruct (legEnded (otherLeg h') s).
        -- destruct (settling_fields (legDone h' s)) as (Hidle & _). congruence.
        -- destruct (legDone_fields h' s Hp) as (_ & _ & _ & _ & _ & Eh & _).
           congruence.
    + destruct a as [next| | |target]; cbn in Hf; try by apply elem_of_nil in Hf.
      destruct (dispatch_cases target s HI) as [[E _]|(h' & _ & Hb & _)];
        [|congruence].
      rewrite E in Hf. by apply elem_of_nil in Hf.
  - intros Han n. by apply Inv_idle_quiet.
  - intros n h Hh. rewrite (inv_listeners s HI) in Hh.
    by apply elem_of_expectedListeners in Hh as (? & ? & _).
Qed.

Lemma listeners_follow_the_transition_witness :
  (∀ n, listenersAt n (tree Examples.onPage1) = []) ∧
  listenersAt 4 (tree Examples.toPage2) = [InAnimationBound] ∧
  listenersAt 3 (tree Examples.toPage2) = [OutAnimationBound].
Proof.
  destruct (listeners_follow_the_transition Examples.onPage1 reachable_onPage1)
    as (Hbegin & _ & Hidle & _).
  split; [apply Hidle; vm_compute; reflexivity|].
  destruct (Hbegin (JsString "page2") (Return tt) Examples.toPage2)
    as (i & Hi & _ & Hin & Hout & _).
  - vm_compute; reflexivity.
  - vm_compute; reflexivity.
  - vm_compute; reflexivity.
  - assert (i = 4%nat) as -> by (vm_compute in Hi; congruence).
    split; [exact Hin|]. apply Hout. vm_compute; reflexivity.
Defined.

Lemma settledLook_other i o r n l :
  n ≠ i → o ≠ Some n → settledLook i o r n l = l.
Proof.
  intros Hi Ho. unfold settledLook.
  rewrite decide_False by done. by rewrite decide_False by done.
Qed.

(** C9.  From [_beginAnimation] to the settling of the transition, and at
    every state in between, an element that is neither the inbound nor the
    outbound page of the transition has the classes and attributes it had
    before the transition started. *)
Theorem transition_touches_only_its_pages
    (s0 : State) (next : JsValue) (out : Outcome unit) (s1 : State) :
  reachable s0 → _animating s0 = false →
  select next s0 = (out, s1) → _animating s1 = true →
  ∀ acts, duringTransition acts s1 →
  ∀ n, _inPage s1 ≠ Some n → _outPage s1 ≠ Some n →
    lookAt n (tree (run acts s1)) = lookAt n (tree s0).
Proof.
  intros Hreach Han Hsel Han' acts Hdur n Hin Hon.
  pose proof (reachable_Inv _ Hreach) as HI0.
  assert (Inv s1) as HI1.
  { replace s1 with (step (Select next) s0); [by apply Inv_step|].
    cbn. by rewrite Hsel. }
  destruct (select_started _ _ _ _ Han Hsel Han')
    as (table & sm & i & Hac & _ & _ & _ & Hne & Hb).
  set (p := prepared next table sm i s0) in *.
  assert (s1 = (begun i p).2) as Hs1 by (by rewrite <- Hb).
  destruct (begun_fields i p) as (_ & Hi & Ho & _).
  rewrite <- Hs1 in Hi, Ho. subst p. cbn -[selectedItem] in Hi, Ho.
  assert (lookAt n (tree s1) = lookAt n (tree s0)) as Hstart.
  { rewrite Hs1. rewrite begun_look_other; [done|congruence|].
    cbn -[selectedItem]. congruence. }
  destruct (transition_run acts s1 HI1 Han' Hdur) as [(_ & _ & _ & Hl)|(_ & Hl)];
    rewrite Hl; [done|].
  rewrite Hi. destruct (_currentClasses s1) as [r|]; [|done].
  rewrite Hstart. rewrite Hi in Hin.
  destruct (lookAt n (tree s0)) as [l|]; [|done]. cbn.
  rewrite settledLook_other; [done|congruence|done].
Qed.

Lemma transition_touches_only_its_pages_witness :
  lookAt 5 (tree (run [AnimationEnd 4%nat; AnimationEnd 3%nat] Examples.toPage2)) =
  lookAt 5 (tree Examples.onPage1).
Proof.
  apply (transition_touches_only_its_pages
           Examples.onPage1 (JsString "page2") (Return tt) Examples.toPage2).
  - exact reachable_onPage1.
  - vm_compute; reflexivity.
  - vm_compute; reflexivity.
  - vm_compute; reflexivity.
  - split; [vm_compute; reflexivity|].
    split; [vm_compute; reflexivity|exact I].
  - evaluate.
  - evaluate.
Defined.

(** ** The selection resolver *)

(** C5.  While the instance is animating (and has its rule table), and when
    the page resolved for [next] is the selected item already, the setter
    returns without an exception and without starting an animation: the
    selection, the selected item, the animating flag and every element are
    what they were.  While animating this holds for every value of [next]. *)
Theorem select_does_nothing (s : State) (next : JsValue) :
  (∀ table, animationClasses s = Some table → _animating s = true →
     select next s = (Return tt, s)) ∧
  (∀ table stringMode p,
     animationClasses s = Some table → _animating s = false →
     (_isStringMode next s).1 = Return stringMode →
     (stringMode = true → attrIsSet s = true) →
     resolve stringMode next s = Some p → selectedItem s = Some p →
     ∃ s', select next s = (Return tt, s') ∧
           selected s' = selected s ∧ selectedItem s' = selectedItem s ∧
           isAnimating s' = isAnimating s ∧ tree s' = tree s).
Proof.
  split.
  - intros table Hac Han. by apply (set_selected_animating _ table).
  - intros table sm p Hac Han Hsm Hattr Hr Hsel.
    unfold select. rewrite (set_selected_selecting _ table) by done.
    unfold selecting. rewrite Hsm.
    assert (sm && negb (attrIsSet s) = false) as ->.
    { destruct sm; [|done]. by rewrite Hattr. }
    rewrite Hr. rewrite decide_True by done.
    eexists. split; [done|]. by split_and!.
Qed.

Lemma select_does_nothing_witness :
  select (JsObject "[object Object]") Examples.toPage2 =
    (Return tt, Examples.toPage2) ∧
  ∃ s', select (JsString "page1") Examples.onPage1 = (Return tt, s') ∧
        selected s' = selected Examples.onPage1 ∧
        selectedItem s' = selectedItem Examples.onPage1 ∧
        isAnimating s' = isAnimating Examples.onPage1 ∧
        tree s' = tree Examples.onPage1.
Proof.
  split.
  - apply (proj1 (select_does_nothing Examples.toPage2 (JsObject "[object Object]"))
             Examples.mainAnimationClasses); vm_compute; reflexivity.
  - apply (proj2 (select_does_nothing Examples.onPage1 (JsString "page1"))
             Examples.mainAnimationClasses true 3%nat);
      vm_compute; reflexivity.
Defined.

Ltac index_arith :=
  repeat match goal with
  | |- context [Z.leb ?a ?b] => destruct (Z.leb_spec a b)
  | |- context [Z.ltb ?a ?b] => destruct (Z.ltb_spec a b)
  end; first [done | lia].

Lemma children_lookup_nonempty t i p :
  children t !! i = Some p → length (children t) ≠ 0%nat.
Proof. intros H%lookup_lt_Some. lia. Qed.

(** C8.  With [i] the index of the selected item among the children,
    [selectNext] selects the child at index [i+1], and the first child when
    the selected item is the last child or there is none; [selectPrevious]
    selects the child at index [i-1], and the last child when the selected
    item is the first child or there is none.  Both throw when the element
    has no children.  Selecting an index takes the child at that index as the
    page to show. *)
Theorem selectNext_selectPrevious_wrap (s : State) :
  let ch := children (tree s) in
  (ch = [] →
     selectNext s =
       (Throw (Error "This component has no children to animate"), s) ∧
     selectPrevious s =
       (Throw (Error "This component has no children to animate"), s)) ∧
  (∀ i p, ch !! i = Some p → selectedItem s = Some p →
     selectNext s =
       select (JsInteger (if decide (S i = length ch) then 0
                          else Z.of_nat i + 1)) s ∧
     selectPrevious s =
       select (JsInteger (if decide (i = 0%nat) then Z.of_nat (length ch) - 1
                          else Z.of_nat i - 1)) s) ∧
  (ch ≠ [] → selectedItem s = None →
     selectNext s = select (JsInteger 0) s ∧
     selectPrevious s = select (JsInteger (Z.of_nat (length ch) - 1)) s) ∧
  (∀ k table out s',
     animationClasses s = Some table → _animating s = false →
     select (JsInteger (Z.of_nat k)) s = (out, s') →
     _inPage s' = ch !! k).
Proof.
  cbn zeta. split_and!.
  - intros Hch. unfold selectNext, selectPrevious, mbind, M_bind, this, throw.
    rewrite Hch. cbn. done.
  - intros i p Hi Hsel.
    pose proof (children_lookup_nonempty _ _ _ Hi) as Hne.
    pose proof (lookup_lt_Some _ _ _ Hi) as Hlt.
    unfold selectNext, selectPrevious, select, mbind, M_bind, this, throw.
    rewrite (decide_False (P := length (children (tree s)) = 0%nat)) by done.
    rewrite (decide_False (P := length (children (tree s)) = 0%nat)) by done.
    rewrite Hsel, (indexOf_lookup _ i p (children_NoDup _) Hi).
    split; f_equal; f_equal; case_decide; index_arith.
  - intros Hch Hsel.
    assert (length (children (tree s)) ≠ 0%nat) as Hne.
    { destruct (children (tree s)); [done|cbn; lia]. }
    unfold selectNext, selectPrevious, select, mbind, M_bind, this, throw.
    rewrite (decide_False (P := length (children (tree s)) = 0%nat)) by done.
    rewrite (decide_False (P := length (children (tree s)) = 0%nat)) by done.
    rewrite Hsel. cbn [indexOf].
    split; f_equal; f_equal; index_arith.
  - intros k table out s' Hac Han Hsel. unfold select in Hsel.
    rewrite (set_selected_selecting _ table) in Hsel by done.
    unfold selecting in Hsel. cbn in Hsel.
    rewrite (proj2 (Z.leb_le 0 (Z.of_nat k))) in Hsel by lia. cbn in Hsel.
    unfold resolve, childrenAt in Hsel.
    rewrite (proj2 (Z.leb_le 0 (Z.of_nat k))), Nat2Z.id in Hsel by lia.
    destruct (children (tree s) !! k) as [p|] eqn:Hk.
    + case_decide; [by simplify_eq|].
      replace s' with (out, s').2 by done. rewrite <- Hsel.
      by destruct (begun_fields p (prepared (JsInteger (Z.of_nat k)) table false p s))
        as (_ & -> & _).
    + by simplify_eq.
Qed.

Lemma selectNext_selectPrevious_wrap_witness :
  selectNext Examples.onPage1 = select (JsInteger 4) Examples.onPage1 ∧
  selectPrevious Examples.onPage1 = select (JsInteger 2) Examples.onPage1 ∧
  selectNext Examples.main = select (JsInteger 0) Examples.main ∧
  selectPrevious Examples.main = select (JsInteger 5) Examples.main.
Proof.
  destruct (selectNext_selectPrevious_wrap Examples.onPage1)
    as (_ & Hstep & _ & _).
  destruct (selectNext_selectPrevious_wrap Examples.main)
    as (_ & _ & Hnone & _).
  destruct (Hstep 3%nat 3%nat) as [Hn Hp]; [vm_compute; reflexivity..|].
  destruct Hnone as [Hn0 Hp0]; [evaluate|vm_compute; reflexivity|].
  split_and!; [exact Hn|exact Hp|exact Hn0|exact Hp0].
Defined.

Lemma begun_children i s : children (tree (begun i s).2) = children (tree s).
Proof.
  unfold begun.
  destruct (_outPage s), (_currentClasses s); cbn;
    by rewrite !children_alter by done.
Qed.

Lemma getAttribute_alter name f m (t : Tree) n :
  (∀ e, getAttribute name (f e) = getAttribute name e) →
  getAttribute name <$> alter f m t !! n = getAttribute name <$> t !! n.
Proof.
  intros Hf. rewrite list_lookup_alter. case_decide; [subst|done].
  destruct (t !! n); cbn; by rewrite ?Hf.
Qed.

Lemma begun_attribute name i s n :
  name ≠ "active" →
  getAttribute name <$> tree (begun i s).2 !! n =
  getAttribute name <$> tree s !! n.
Proof.
  intros Hname.
  assert (∀ e, getAttribute name (setAttribute "active" "true" e) =
               getAttribute name e) as Hset.
  { intros e. unfold getAttribute, setAttribute. cbn.
    by rewrite lookup_insert_ne. }
  unfold begun.
  destruct (_outPage s), (_currentClasses s); cbn;
    by rewrite !getAttribute_alter.
Qed.

Lemma firstWith_getAttributeAt name value t p :
  firstWith name value t p → getAttributeAt name t p = Some value.
Proof.
  intros [(e & He & Hv) _]. unfold getAttributeAt. by rewrite He.
Qed.


Lemma truthy_or_zero z : truthy (JsInteger z) || isZero (JsInteger z) = true.
Proof. destruct z; reflexivity. Qed.

Lemma prepared_selected next table stringMode i s :
  _selected (prepared next table stringMode i s) =
    if attrIsSet s then
      match getAttributeAt (attrName s) (tree s) i with
      | Some v => JsString v
      | None => JsNull
      end
    else next.
Proof. reflexivity. Qed.





(** ** Exceptions of the setter *)



(** C4, at the input where the code departs from it.  The rule table of
    [demo/noattr-demo.js] has no [default]; with a third slide, selecting it
    matches no rule, and the setter throws a [TypeError] out of
    [_beginAnimation] after it has changed the selection and set the
    animating flag.  The inbound listener is registered but no class is
    added, and every later call of the setter returns at once. *)
Theorem select_without_matching_rule :
  let s := Examples.threeSlides in
  let s' := (select (JsInteger 2) s).2 in
  (select (JsInteger 2) s).1 = Throw TypeError ∧
  selected s = JsUndefined ∧ selected s' = JsInteger 2 ∧
  selectedItem s = None ∧ selectedItem s' = Some 2%nat ∧
  isAnimating s = false ∧ isAnimating s' = true ∧
  listenersAt 2 (tree s') = [InAnimationBound] ∧
  classesAt 2 (tree s') = [] ∧
  ∀ next, select next s' = (Return tt, s').
Proof.
  cbn zeta. split_and!; try (vm_compute; reflexivity).
Qed.

(** When the setter throws one of its own [Error]s. *)
Lemma select_Error_cases s next :
  (∃ message s', select next s = (Throw (Error message), s')) ↔
  animationClasses s = None ∨
  (_animating s = false ∧
   ((∀ stringMode, (_isStringMode next s).1 ≠ Return stringMode) ∨
    (∃ str, next = JsString str ∧ attrIsSet s = false) ∨
    (∃ stringMode, (_isStringMode next s).1 = Return stringMode ∧
                   resolve stringMode next s = None))).
Proof.
  unfold select.
  destruct (animationClasses s) as [table|] eqn:Hac.
  2: { rewrite set_selected_unset by done. split; [by left|eauto]. }
  destruct (_animating s) eqn:Han.
  { rewrite (set_selected_animating _ table) by done.
    split; [by intros (? & ? & ?)|]. by intros [?|[? _]]. }
  rewrite (set_selected_selecting _ table) by done. unfold selecting.
  destruct (_isStringMode next s).1 as [sm|e] eqn:Hsm.
  2: { split; [intros _; right; split; [done|]; by left|intros _].
       destruct next as [| |b|z|x|x|x]; cbn in Hsm; try (simplify_eq; eauto).
       destruct (Z.leb 0 z); cbn in Hsm; simplify_eq; eauto. }
  destruct (sm && negb (attrIsSet s)) eqn:Hattr.
  { split; [intros _|eauto]. right. split; [done|]. right. left.
    apply andb_true_iff in Hattr as [-> Hset%negb_true_iff].
    destruct next as [| |b|z|x|str|x]; cbn in Hsm; try done; [|eauto].
    by destruct (Z.leb 0 z). }
  destruct (resolve sm next s) as [i|] eqn:Hr.
  - split.
    + intros (message & s' & Hsel). exfalso. revert Hsel.
      case_decide; [done|]. unfold begun.
      by destruct (_outPage _), (_currentClasses _).
    + intros [?|[_ [Hno|[(str & -> & Hset)|(sm' & Hsm' & Hr')]]]]; try done.
      * by destruct (Hno sm).
      * cbn in Hsm. simplify_eq. by rewrite Hset in Hattr.
      * congruence.
  - split; [intros _|eauto]. right. split; [done|]. right. right. eauto.
Qed.

(** ** The kind of value [_selected] holds *)

Lemma isStringMode_index next s :
  (_isStringMode next s).1 = Return false → ∃ z, (0 ≤ z)%Z ∧ next = JsInteger z.
Proof.
  destruct next as [| |b|z|x|x|x]; cbn; try done.
  destruct (Z.leb_spec 0 z); [eauto|done].
Qed.

Lemma indexSelected_ext s s' :
  attrForSelected s' = attrForSelected s → _selected s' = _selected s →
  indexSelected s → indexSelected s'.
Proof.
  unfold indexSelected, attrIsSet. intros -> ->. done.
Qed.

Lemma set_selected_indexSelected next s :
  indexSelected s → indexSelected (set_selected next s).2.
Proof.
  intros Hk.
  destruct (animationClasses s) as [table|] eqn:Hac;
    [|by rewrite set_selected_unset].
  destruct (_animating s) eqn:Han;
    [by rewrite (set_selected_animating _ table)|].
  rewrite (set_selected_selecting _ table) by done. unfold selecting.
  destruct (_isStringMode next s).1 as [sm|e] eqn:Hsm; [|done].
  destruct (sm && negb (attrIsSet s)) eqn:Hattr; [done|].
  destruct (resolve sm next s) as [i|] eqn:Hr;
    [|by apply (indexSelected_ext s)].
  case_decide; [by apply (indexSelected_ext s)|].
  destruct (begun_fields i (prepared next table sm i s))
    as (_ & _ & _ & _ & Hsel & _ & Hattr' & _).
  unfold indexSelected, attrIsSet. rewrite Hsel, Hattr', prepared_selected.
  change (attrForSelected (prepared next table sm i s)) with (attrForSelected s).
  fold (attrIsSet s). intros Hunset. rewrite Hunset in *. right.
  destruct sm; [done|]. destruct (isStringMode_index _ _ Hsm) as (z & Hz & ->).
  eauto.
Qed.

Lemma legDone_attr h s : attrForSelected (legDone h s) = attrForSelected s.
Proof. destruct h; cbn; [by destruct (_inPage s)|by destruct (_outPage s)]. Qed.

Lemma legDone_selected h s : _selected (legDone h s) = _selected s.
Proof. destruct h; cbn; [by destruct (_inPage s)|by destruct (_outPage s)]. Qed.

Lemma onAnimationEnd_attr s :
  attrForSelected (_onAnimationEnd s).2 = attrForSelected s ∧
  _selected (_onAnimationEnd s).2 = _selected s.
Proof.
  rewrite onAnimationEnd_settling.
  destruct (_inAnimationEnded s && _outAnimationEnded s); [|done].
  unfold settling. by destruct (_inPage s), (_currentClasses s).
Qed.

Lemma step_indexSelected a s :
  Inv s → indexSelected s → indexSelected (step a s).
Proof.
  intros HI Hk. destruct a as [next| | |target]; cbn.
  - by apply set_selected_indexSelected.
  - destruct (selectNext_cases s) as [-> | [k ->]]; [done|].
    by apply set_selected_indexSelected.
  - destruct (selectPrevious_cases s) as [-> | [k ->]]; [done|].
    by apply set_selected_indexSelected.
  - destruct (dispatch_cases target s HI) as [[-> _]|(h & -> & _)]; [done|].
    cbn. destruct (onAnimationEnd_attr (legDone h s)) as [Ha Hs].
    apply (indexSelected_ext s); [| |done].
    + by rewrite Ha, legDone_attr.
    + by rewrite Hs, legDone_selected.
Qed.

Lemma selected_kind s : reachable s → indexSelected s.
Proof.
  induction 1 as [classes attr t Hq | a s Hs IH].
  - intros _. by left.
  - apply step_indexSelected; [by apply reachable_Inv|done].
Qed.

(** ** Further properties: the outcomes of the setter *)







(** ** Further properties: what the private state holds *)

Lemma selectedKind_ext s s' :
  attrForSelected s' = attrForSelected s → _selected s' = _selected s →
  selectedKind s → selectedKind s'.
Proof.
  unfold selectedKind, attrIsSet. intros -> ->. done.
Qed.

Lemma set_selected_selectedKind next s :
  selectedKind s → selectedKind (set_selected next s).2.
Proof.
  intros Hk.
  destruct (animationClasses s) as [table|] eqn:Hac;
    [|by rewrite set_selected_unset].
  destruct (_animating s) eqn:Han;
    [by rewrite (set_selected_animating _ table)|].
  rewrite (set_selected_selecting _ table) by done. unfold selecting.
  destruct (_isStringMode next s).1 as [sm|e] eqn:Hsm; [|done].
  destruct (sm && negb (attrIsSet s)) eqn:Hattr; [done|].
  destruct (resolve sm next s) as [i|] eqn:Hr;
    [|by apply (selectedKind_ext s)].
  case_decide; [by apply (selectedKind_ext s)|].
  destruct (begun_fields i (prepared next table sm i s))
    as (_ & _ & _ & _ & Hsel & _ & Hattr' & _).
  unfold selectedKind, attrIsSet. rewrite Hsel, Hattr', prepared_selected.
  change (attrForSelected (prepared next table sm i s)) with (attrForSelected s).
  fold (attrIsSet s).
  destruct (attrIsSet s) eqn:Hset.
  - by destruct (getAttributeAt _ _ _).
  - destruct sm; [done|].
    by destruct (isStringMode_index _ _ Hsm) as (z & Hz & ->).
Qed.

Lemma step_selectedKind a s :
  Inv s → selectedKind s → selectedKind (step a s).
Proof.
  intros HI Hk. destruct a as [next| | |target]; cbn.
  - by apply set_selected_selectedKind.
  - destruct (selectNext_cases s) as [-> | [k ->]]; [done|].
    by apply set_selected_selectedKind.
  - destruct (selectPrevious_cases s) as [-> | [k ->]]; [done|].
    by apply set_selected_selectedKind.
  - destruct (dispatch_cases target s HI) as [[-> _]|(h & -> & _)]; [done|].
    cbn. destruct (onAnimationEnd_attr (legDone h s)) as [Ha Hs].
    apply (selectedKind_ext s); [| |done].
    + by rewrite Ha, legDone_attr.
    + by rewrite Hs, legDone_selected.
Qed.

Lemma reachable_selectedKind s : reachable s → selectedKind s.
Proof.
  induction 1 as [classes attr t Hq | a s Hs IH].
  - done.
  - apply step_selectedKind; [by apply reachable_Inv|done].
Qed.

(** X5.  In every state an instance can reach, [selected] is [undefined]
    (nothing selected yet), or a non-negative integer while [attrForSelected]
    is not set, or an attribute value (a string, or [null] for a page without
    the attribute) while it is set. *)
Theorem selected_is_index_or_attribute_value (s : State) :
  reachable s →
  match selected s with
  | JsUndefined => True
  | JsInteger z => attrIsSet s = false ∧ (0 ≤ z)%Z
  | JsString _ | JsNull => attrIsSet s = true
  | _ => False
  end.
Proof. apply reachable_selectedKind. Qed.

Lemma selected_is_index_or_attribute_value_witness :
  selected Examples.toPage2 = JsString "page2" ∧
  attrIsSet Examples.toPage2 = true.
Proof.
  pose proof (selected_is_index_or_attribute_value Examples.toPage2) as H.
  assert (selected Examples.toPage2 = JsString "page2") as Hsel
    by (vm_compute; reflexivity).
  rewrite Hsel in H. split; [reflexivity|]. apply H.
  apply (reachable_step (Select (JsString "page2"))), reachable_onPage1.
Defined.

(** X6.  The bookkeeping of the two legs is never stale: an instance that is
    not animating has both ended flags down, and an animating one has its
    inbound page set and different from the outbound page, never both flags
    up, the outbound flag up when there is no outbound page, and at most one
    listener on any element. *)
Theorem legs_bookkeeping (s : State) :
  reachable s →
  (_animating s = false →
     _inAnimationEnded s = false ∧ _outAnimationEnded s = false) ∧
  (_animating s = true →
     (∃ i, _inPage s = Some i ∧ _outPage s ≠ Some i) ∧
     _inAnimationEnded s && _outAnimationEnded s = false ∧
     (_outPage s = None → _outAnimationEnded s = true)) ∧
  (∀ n, (length (listenersAt n (tree s)) ≤ 1)%nat).
Proof.
  intros Hreach. pose proof (reachable_Inv _ Hreach) as HI.
  split_and!.
  - apply (inv_idle s HI).
  - intros Han. split_and!.
    + by apply (inv_pages s HI).
    + by apply (inv_legs s HI).
    + by apply (inv_no_out s HI).
  - intros n. rewrite (inv_listeners s HI).
    destruct (expectedListeners_cases s n) as [-> | (h & -> & _)]; cbn; lia.
Qed.

Lemma legs_bookkeeping_witness :
  _inAnimationEnded Examples.onPage1 = false ∧
  _outAnimationEnded Examples.onPage1 = false.
Proof.
  apply (proj1 (legs_bookkeeping Examples.onPage1 reachable_onPage1)).
  vm_compute; reflexivity.
Defined.



(** ** Further properties: the end of a transition *)

Lemma dispatch_leg h s n :
  Inv s → _animating s = true → legPage h s = Some n → legEnded h s = false →
  dispatchAnimationEnd n s = ((_onAnimationEnd (legDone h s)).2, [h]).
Proof.
  intros HI Han Hp He.
  destruct (inv_pages s HI Han) as (i & Hi & Hne).
  destruct (dispatch_cases n s HI) as [[_ E]|(h' & -> & _ & Hp' & _)].
  - exfalso. unfold expectedListeners in E. rewrite Han in E.
    destruct h; cbn in *.
    + rewrite decide_True, He in E by done. done.
    + rewrite decide_False, decide_True, He in E by congruence. done.
  - destruct h, h'; cbn in *; congruence.
Qed.

Lemma legDone_commute s i j :
  _inPage s = Some i → _outPage s = Some j → i ≠ j →
  legDone OutAnimationBound (legDone InAnimationBound s) =
  legDone InAnimationBound (legDone OutAnimationBound s).
Proof.
  destruct s as [ac attr t sel an ie oe ip op cc]; cbn. intros -> -> Hij. cbn.
  unfold with_outAnimationEnded, with_inAnimationEnded, with_tree; cbn.
  f_equal. by apply list_alter_alter_ne.
Qed.

Lemma settling_clean s i r :
  _inPage s = Some i → _currentClasses s = Some r →
  (settling s).1 = Return tt ∧
  _inPage (settling s).2 = None ∧ _outPage (settling s).2 = None ∧
  _currentClasses (settling s).2 = None.
Proof. intros Hi Hc. unfold settling. by rewrite Hi, Hc. Qed.

(** X8.  A transition that has started with a rule ends when the
    animation-finished event has reached its pages, in either order, and the
    two orders leave the instance in the same state: not animating, with the
    private pages and rule cleared, both flags down, the selection it has had
    since the start, and no listener on any element. *)
Theorem legs_finish_in_either_order
    (s0 : State) (next : JsValue) (s1 : State) (i : nat) :
  reachable s0 → _animating s0 = false →
  select next s0 = (Return tt, s1) → _animating s1 = true →
  _inPage s1 = Some i →
  let s2 :=
    match _outPage s1 with
    | Some j => run [AnimationEnd i; AnimationEnd j] s1
    | None => run [AnimationEnd i] s1
    end in
  (∀ j, _outPage s1 = Some j →
     run [AnimationEnd j; AnimationEnd i] s1 = s2) ∧
  isAnimating s2 = false ∧
  _inPage s2 = None ∧ _outPage s2 = None ∧ _currentClasses s2 = None ∧
  _inAnimationEnded s2 = false ∧ _outAnimationEnded s2 = false ∧
  selected s2 = selected s1 ∧
  (∀ n, listenersAt n (tree s2) = []).
Proof.
  intros Hreach Han Hsel Han' Hi.
  pose proof (reachable_Inv _ Hreach) as HI0.
  assert (reachable s1) as Hreach1.
  { replace s1 with (step (Select next) s0); [by apply reachable_step|].
    cbn. by rewrite Hsel. }
  pose proof (reachable_Inv _ Hreach1) as HI1.
  destruct (select_started_look _ _ _ HI0 Han Hsel Han')
    as (table & prev & r & i' & _ & _ & Hcc & Hi' & Ho & Hne & _ & _).
  destruct (select_started _ _ _ _ Han Hsel Han')
    as (table' & sm & i'' & _ & _ & _ & _ & _ & Hb).
  destruct (inv_idle s0 HI0 Han) as [Hie0 Hoe0].
  destruct (begun_legs i'' (prepared next table' sm i'' s0) Hie0 Hoe0)
    as [Hie1 Hoe1].
  rewrite <- Hb in Hie1, Hoe1. cbn -[selectedItem] in Hie1, Hoe1.
  assert (∀ s, Inv s → _animating s = false →
            ∀ n, listenersAt n (tree s) = []) as Hquiet.
  { intros s HI Hidle n. by apply Inv_idle_quiet. }
  assert (∀ h s, legPage h s ≠ None → _inPage s = Some i →
            _currentClasses s = Some r → _animating s = true → Inv s →
            legEnded h s = false → legEnded (otherLeg h) s = true →
            let s2 := (_onAnimationEnd (legDone h s)).2 in
            isAnimating s2 = false ∧ _inPage s2 = None ∧ _outPage s2 = None ∧
            _currentClasses s2 = None ∧ _inAnimationEnded s2 = false ∧
            _outAnimationEnded s2 = false ∧ selected s2 = selected s ∧
            ∀ n, listenersAt n (tree s2) = []) as Hend.
  { intros h s Hp Hin Hrule Hbusy HI He Hoth.
    destruct (legDone_fields h s Hp) as (Ea & Ei & Eo & Ec & Es & Eh & Eo' & _).
    cbn zeta. rewrite onAnimationEnd_settling, (both_legs h), Eh, Eo', Hoth. cbn.
    destruct (settling_fields (legDone h s)) as (Sa & Sie & Soe & Ssel & _).
    destruct (settling_clean (legDone h s) i r) as (_ & Ci & Co & Cc);
      [congruence..|].
    split_and!; try done; try congruence.
    - unfold selected. congruence.
    - apply Hquiet; [by apply Inv_settling|done]. }
  destruct (_outPage s1) as [j|] eqn:Hj.
  - assert (_outAnimationEnded s1 = false) as Hoe.
    { destruct (_outAnimationEnded s1); [|done].
      destruct Hoe1 as [Hoe1 _]. rewrite <- Ho in Hoe1. by specialize (Hoe1 eq_refl). }
    assert (i ≠ j) as Hij.
    { destruct (inv_pages s1 HI1 Han') as (k & Hk & Hnk). congruence. }
    set (sA := legDone InAnimationBound s1).
    set (sB := legDone OutAnimationBound s1).
    assert (step (AnimationEnd i) s1 = sA) as HA.
    { cbn. rewrite (dispatch_leg InAnimationBound) by done. cbn [fst].
      rewrite onAnimationEnd_settling. subst sA. cbn. rewrite Hi. cbn.
      by rewrite Hoe. }
    assert (step (AnimationEnd j) s1 = sB) as HB.
    { cbn. rewrite (dispatch_leg OutAnimationBound) by done. cbn [fst].
      rewrite onAnimationEnd_settling. subst sB. cbn. rewrite Hj. cbn.
      by rewrite Hie1. }
    assert (Inv sA ∧ Inv sB) as [HIA HIB].
    { split; apply Inv_legDone; cbn; congruence. }
    assert (_inPage sA = Some i ∧ _outPage sA = Some j ∧
            _currentClasses sA = Some r ∧ _animating sA = true ∧
            _inAnimationEnded sA = true ∧ _outAnimationEnded sA = false ∧
            _selected sA = _selected s1) as (Ai & Ao & Ac & Aa & Aie & Aoe & As).
    { subst sA. cbn. rewrite Hi. cbn. by split_and!. }
    assert (_inPage sB = Some i ∧ _outPage sB = Some j ∧
            _currentClasses sB = Some r ∧ _animating sB = true ∧
            _inAnimationEnded sB = false ∧ _outAnimationEnded sB = true)
      as (Bi & Bo & Bc & Ba & Bie & Boe).
    { subst sB. cbn. rewrite Hj. cbn. by split_and!. }
    assert (run [AnimationEnd i; AnimationEnd j] s1 =
            (_onAnimationEnd (legDone OutAnimationBound sA)).2) as Hrun.
    { cbn [run]. rewrite HA. cbn.
      by rewrite (dispatch_leg OutAnimationBound) by done. }
    assert (run [AnimationEnd j; AnimationEnd i] s1 =
            (_onAnimationEnd (legDone InAnimationBound sB)).2) as Hrun'.
    { cbn [run]. rewrite HB. cbn.
      by rewrite (dispatch_leg InAnimationBound) by done. }
    cbn zeta. rewrite Hrun. split.
    + intros j' [= <-]. rewrite Hrun'. subst sA sB.
      by rewrite (legDone_commute s1 i j).
    + assert (legPage OutAnimationBound sA ≠ None) as Ap by (unfold legPage; congruence).
      destruct (Hend OutAnimationBound sA Ap Ai Ac Aa HIA Aoe Aie)
        as (H1 & H2 & H3 & H4 & H5 & H6 & H7 & H8).
      unfold selected in H7 |- *. rewrite H7, As. by split_and!.
  - assert (_outAnimationEnded s1 = true) as Hoe.
    { apply Hoe1. by rewrite <- Ho. }
    cbn zeta. split; [done|]. cbn [run]. cbn.
    rewrite (dispatch_leg InAnimationBound) by done. cbn [fst].
    assert (legPage InAnimationBound s1 ≠ None) as Hp by (unfold legPage; congruence).
    apply (Hend InAnimationBound s1 Hp Hi Hcc Han' HI1 Hie1 Hoe).
Qed.

Lemma legs_finish_in_either_order_witness :
  run [AnimationEnd 3%nat; AnimationEnd 4%nat]
    (select (JsString "page2") Examples.onPage1).2 =
  run [AnimationEnd 4%nat; AnimationEnd 3%nat]
    (select (JsString "page2") Examples.onPage1).2 ∧
  isAnimating
    (run [AnimationEnd 4%nat; AnimationEnd 3%nat]
       (select (JsString "page2") Examples.onPage1).2) = false.
Proof.
  assert ((select (JsString "page2") Examples.onPage1).1 = Return tt) as Hout1
    by (vm_compute; reflexivity).
  assert (select (JsString "page2") Examples.onPage1 =
          (Return tt, (select (JsString "page2") Examples.onPage1).2)) as Hsel.
  { rewrite <- Hout1. apply surjective_pairing. }
  assert (_animating Examples.onPage1 = false) as Han0
    by (vm_compute; reflexivity).
  assert (_animating (select (JsString "page2") Examples.onPage1).2 = true)
    as Han1 by (vm_compute; reflexivity).
  assert (_inPage (select (JsString "page2") Examples.onPage1).2 = Some 4%nat)
    as Hin by (vm_compute; reflexivity).
  assert (_outPage (select (JsString "page2") Examples.onPage1).2 = Some 3%nat)
    as Hout by (vm_compute; reflexivity).
  pose proof (legs_finish_in_either_order
                Examples.onPage1 (JsString "page2")
                (select (JsString "page2") Examples.onPage1).2 4%nat
                reachable_onPage1 Han0 Hsel Han1 Hin) as H.
  cbv zeta in H. rewrite Hout in H. destruct H as (Hsame & Hidle & _).
  split; [exact (Hsame 3%nat eq_refl)|exact Hidle].
Defined.

(** ** Further properties: the identifiers of a transition *)

Lemma animationClasses_toString next prev prev' table :
  toString prev = toString prev' →
  _animationClasses next prev table = _animationClasses next prev' table.
Proof. intros H. unfold _animationClasses. by rewrite H. Qed.

Lemma childrenAt_Some key t p :
  childrenAt key t = Some p →
  ∃ z, key = JsInteger z ∧ (0 ≤ z)%Z ∧ children t !! Z.to_nat z = Some p.
Proof.
  unfold childrenAt. destruct key as [| |b|z|x|x|x]; try done.
  destruct (Z.leb_spec 0 z); [eauto|done].
Qed.

Lemma selectedItem_Some s j :
  selectedItem s = Some j →
  if attrIsSet s
  then firstWith (attrName s) (toString (_selected s)) (tree s) j
  else ∃ z, _selected s = JsInteger z ∧ (0 ≤ z)%Z ∧
            children (tree s) !! Z.to_nat z = Some j.
Proof.
  unfold selectedItem.
  destruct (truthy (_selected s) || isZero (_selected s)); [|done].
  destruct (attrIsSet s).
  - apply querySelector_firstWith.
  - apply childrenAt_Some.
Qed.

(** The identifier the setter hands to the rule matcher for the outgoing
    page prints as the selection does, when the call is by index without
    [attrForSelected] or by string. *)
Lemma prevOf_selected stringMode next s j i :
  selectedItem s = Some j →
  (_isStringMode next s).1 = Return stringMode →
  (stringMode = true → attrIsSet s = true) →
  attrIsSet s = false ∨ stringMode = true →
  toString (prevOf stringMode
              (with_outPage (selectedItem s) (with_inPage (Some i) s))) =
  toString (_selected s).
Proof.
  intros Hj Hsm Hattr Hpure. unfold prevOf.
  cbn -[selectedItem indexOf children getAttributeAt attrName]. rewrite Hj.
  pose proof (selectedItem_Some s j Hj) as Hitem.
  destruct stringMode.
  - rewrite (Hattr eq_refl) in Hitem.
    change (attrName (with_outPage (Some j) (with_inPage (Some i) s)))
      with (attrName s).
    by rewrite (firstWith_getAttributeAt _ _ _ _ Hitem).
  - destruct Hpure as [Hunset|?]; [|done]. rewrite Hunset in Hitem.
    destruct Hitem as (z & -> & Hz & Hch).
    rewrite (indexOf_lookup _ _ _ (children_NoDup _) Hch).
    by rewrite Z2Nat.id.
Qed.

(** X9.  When a page is selected and the next one is selected by index
    without [attrForSelected], or by string, the rule of the transition is
    the one the matcher gives for the pair (old [selected], [next]): the most
    specific key is the old selection, an underscore and the new one. *)
Theorem transition_rule_keyed_by_selection
    (s : State) (next : JsValue) (table : gmap string Rule)
    (out : Outcome unit) (s' : State) (j : nat) :
  animationClasses s = Some table → _animating s = false →
  selectedItem s = Some j →
  select next s = (out, s') → _animating s' = true →
  attrIsSet s = false ∨ (∃ str, next = JsString str) →
  _currentClasses s' = _animationClasses next (selected s) table.
Proof.
  intros Hac Han Hj Hsel Han' Hpure.
  destruct (select_started _ _ _ _ Han Hsel Han')
    as (table' & sm & i & Hac' & Hsm & Hattr & Hr & Hne & Hb).
  simplify_eq.
  replace s' with (out, s').2 by done. rewrite Hb.
  destruct (begun_fields i (prepared next table sm i s)) as (_ & _ & _ & -> & _).
  unfold prepared. cbn -[selectedItem prevOf].
  apply animationClasses_toString.
  apply (prevOf_selected sm next s j i); try done.
  destruct Hpure as [?|[str ->]]; [by left|right].
  cbn in Hsm. by simplify_eq.
Qed.

Lemma transition_rule_keyed_by_selection_witness :
  _currentClasses Examples.toPage2 =
  _animationClasses (JsString "page2") (JsString "page1")
    Examples.mainAnimationClasses.
Proof.
  apply (transition_rule_keyed_by_selection Examples.onPage1 (JsString "page2")
           Examples.mainAnimationClasses (Return tt) Examples.toPage2 3%nat);
    try (vm_compute; reflexivity).
  right. by exists "page2".
Defined.

(** ** Further properties: what no method changes *)

Lemma sameStructure_refl s : sameStructure s s.
Proof. by split_and!. Qed.

Lemma sameStructure_trans s1 s2 s3 :
  sameStructure s1 s2 → sameStructure s2 s3 → sameStructure s1 s3.
Proof.
  intros (A1 & B1 & C1 & D1 & E1) (A2 & B2 & C2 & D2 & E2).
  split_and!; try congruence.
  intros name n Hname. by rewrite E2, E1.
Qed.

Lemma sameStructure_fields s s' :
  animationClasses s' = animationClasses s →
  attrForSelected s' = attrForSelected s →
  tree s' = tree s → sameStructure s s'.
Proof. intros A B C. split_and!; try done; by rewrite C. Qed.

Lemma sameStructure_alter f n s s' :
  animationClasses s' = animationClasses s →
  attrForSelected s' = attrForSelected s →
  tree s' = alter f n (tree s) →
  (∀ e, isChild (f e) = isChild e) →
  (∀ e name, name ≠ "active" → getAttribute name (f e) = getAttribute name e) →
  sameStructure s s'.
Proof.
  intros A B C Hc Ha. split_and!; try done; rewrite C.
  - apply length_alter.
  - by apply children_alter.
  - intros name m Hname. apply getAttribute_alter. intros e. by apply Ha.
Qed.

Lemma getAttribute_active_frame name e :
  name ≠ "active" →
  getAttribute name (setAttribute "active" "true" e) = getAttribute name e ∧
  getAttribute name (removeAttribute "active" e) = getAttribute name e.
Proof.
  intros Hname. unfold getAttribute, setAttribute, removeAttribute. cbn.
  by rewrite lookup_insert_ne, lookup_delete_ne.
Qed.

Lemma sameStructure_begun i s : sameStructure s (begun i s).2.
Proof.
  destruct (begun_fields i s) as (_ & _ & _ & _ & _ & A & B & _).
  split_and!; try done.
  - unfold begun. destruct (_outPage s), (_currentClasses s); cbn;
      by rewrite !length_alter.
  - apply begun_children.
  - intros name n Hname. by apply begun_attribute.
Qed.

Lemma sameStructure_legDone h s : sameStructure s (legDone h s).
Proof.
  destruct h; cbn.
  - destruct (_inPage s) as [i|]; [|apply sameStructure_refl].
    by eapply sameStructure_alter.
  - destruct (_outPage s) as [j|]; [|apply sameStructure_refl].
    by eapply sameStructure_alter.
Qed.

Lemma sameStructure_settling s : sameStructure s (settling s).2.
Proof.
  unfold settling.
  destruct (_inPage s) as [i|], (_currentClasses s) as [r|];
    try by apply sameStructure_fields.
  unfold sameStructure.
  cbn [snd tree animationClasses attrForSelected with_currentClasses
       with_outPage with_inPage with_tree with_animating
       with_outAnimationEnded with_inAnimationEnded].
  split_and!; try done.
  - destruct (_outPage s); by rewrite !length_alter.
  - destruct (_outPage s); by rewrite !children_alter.
  - intros name n Hname.
    destruct (_outPage s); rewrite !getAttribute_alter; try done.
    intros e. by apply getAttribute_active_frame.
Qed.

Lemma sameStructure_onAnimationEnd s : sameStructure s (_onAnimationEnd s).2.
Proof.
  rewrite onAnimationEnd_settling.
  destruct (_inAnimationEnded s && _outAnimationEnded s).
  - apply sameStructure_settling.
  - apply sameStructure_refl.
Qed.

Lemma handleEvent_no_page h s :
  legPage h s = None → handleEvent h s = (Throw TypeError, s).
Proof.
  destruct h; cbn; intros Hp;
    unfold _inAnimation, _outAnimation, mbind, M_bind, this, deref, throw;
    by rewrite Hp.
Qed.

Lemma sameStructure_handleEvent h s : sameStructure s (handleEvent h s).2.
Proof.
  destruct (legPage h s) as [n|] eqn:Hp.
  - rewrite handleEvent_legDone by congruence.
    eapply sameStructure_trans; [apply sameStructure_legDone|].
    apply sameStructure_onAnimationEnd.
  - rewrite handleEvent_no_page by done. apply sameStructure_refl.
Qed.

Lemma sameStructure_invoke target hs : ∀ s,
  sameStructure s (invoke target hs s).1.
Proof.
  induction hs as [|h hs IH]; intros s; cbn; [apply sameStructure_refl|].
  case_decide; [|apply IH]. cbn.
  eapply sameStructure_trans; [apply sameStructure_handleEvent|apply IH].
Qed.

Lemma sameStructure_set_selected next s :
  sameStructure s (set_selected next s).2.
Proof.
  destruct (animationClasses s) as [table|] eqn:Hac;
    [|rewrite set_selected_unset by done; apply sameStructure_refl].
  destruct (_animating s) eqn:Han;
    [rewrite (set_selected_animating _ table) by done; apply sameStructure_refl|].
  rewrite (set_selected_selecting _ table) by done. unfold selecting.
  destruct (_isStringMode next s).1 as [sm|e]; [|apply sameStructure_refl].
  destruct (sm && negb (attrIsSet s)); [apply sameStructure_refl|].
  destruct (resolve sm next s) as [i|]; [|by apply sameStructure_fields].
  case_decide; [by apply sameStructure_fields|].
  eapply sameStructure_trans; [|apply sameStructure_begun].
  by apply sameStructure_fields.
Qed.

Lemma sameStructure_step a s : sameStructure s (step a s).
Proof.
  destruct a as [next| | |target]; cbn.
  - apply sameStructure_set_selected.
  - destruct (selectNext_cases s) as [-> | [k ->]];
      [apply sameStructure_refl|apply sameStructure_set_selected].
  - destruct (selectPrevious_cases s) as [-> | [k ->]];
      [apply sameStructure_refl|apply sameStructure_set_selected].
  - apply sameStructure_invoke.
Qed.


(** ** Further properties: the constructor and the demo *)

(** X11.  The constructor prefers the unprefixed style property: the event
    is [animationend] whenever the browser has [animation]; it is the
    prefixed event of Opera or WebKit only when every property before it in
    the table is missing; and it is left [undefined] exactly when the browser
    has none of the four properties. *)
Theorem animationEvent_precedence (style : string → bool) :
  (_animationEvent style = None ↔
     style "animation" = false ∧ style "OAnimation" = false ∧
     style "MozAnimation" = false ∧ style "WebkitAnimation" = false) ∧
  (_animationEvent style = Some "animationend" ↔
     style "animation" = true ∨
     (style "OAnimation" = false ∧ style "MozAnimation" = true)) ∧
  (_animationEvent style = Some "oAnimationEnd" ↔
     style "animation" = false ∧ style "OAnimation" = true) ∧
  (_animationEvent style = Some "webkitAnimationEnd" ↔
     style "animation" = false ∧ style "OAnimation" = false ∧
     style "MozAnimation" = false ∧ style "WebkitAnimation" = true) ∧
  (∀ event, _animationEvent style = Some event →
     event ∈ ["animationend"; "oAnimationEnd"; "webkitAnimationEnd"]).
Proof.
  unfold _animationEvent, animations. cbn.
  destruct (style "animation"), (style "OAnimation"), (style "MozAnimation"),
    (style "WebkitAnimation");
    (split_and!; [| | | |intros event [= <-]; set_solver];
     split; try done; try (intros (? & ? & ? & ?); done);
     try (intros [? ?]; done); try (intros [?|[? ?]]; done); auto).
Qed.



(** ** Further properties: the selection that is read back *)

Lemma isStringMode_throws next s e :
  (_isStringMode next s).1 = Throw e → ∃ message, e = Error message.
Proof.
  destruct next as [| |b|z|x|x|x]; cbn; try (intros [= <-]; eauto); try done.
  destruct (Z.leb 0 z); cbn; [done|]. intros [= <-]. eauto.
Qed.

Lemma truthy_selectedKind s :
  selectedKind s → attrIsSet s = true →
  truthy (_selected s) || isZero (_selected s) = true →
  _selected s = JsString (toString (_selected s)).
Proof.
  unfold selectedKind. intros Hk Hset Ht.
  destruct (_selected s) as [| |b|z|x|x|x]; try done.
  destruct Hk. congruence.
Qed.

(** What [selected] holds after a call of the setter that throws none of its
    [Error]s, by index without [attrForSelected] or by string. *)
Lemma select_selected s next out s' :
  selectedKind s → _animating s = false →
  select next s = (out, s') →
  (∀ message, out ≠ Throw (Error message)) →
  attrIsSet s = false ∨ (∃ str, next = JsString str) →
  _selected s' = next.
Proof.
  intros Hk Han Hsel Hout Hpure. unfold select in Hsel.
  destruct (animationClasses s) as [table|] eqn:Hac.
  2: { rewrite set_selected_unset in Hsel by done. simplify_eq. by edestruct Hout. }
  rewrite (set_selected_selecting _ table) in Hsel by done.
  unfold selecting in Hsel.
  destruct (_isStringMode next s).1 as [sm|e] eqn:Hsm.
  2: { simplify_eq. destruct (isStringMode_throws _ _ _ Hsm) as [m ->].
       by edestruct Hout. }
  destruct (sm && negb (attrIsSet s)) eqn:Hattr;
    [simplify_eq; by edestruct Hout|].
  destruct (resolve sm next s) as [i|] eqn:Hr;
    [|simplify_eq; by edestruct Hout].
  assert ((sm = true ∧ attrIsSet s = true ∧ ∃ str, next = JsString str) ∨
          (sm = false ∧ attrIsSet s = false ∧
           ∃ z, (0 ≤ z)%Z ∧ next = JsInteger z)) as Hmode.
  { destruct sm.
    - left. cbn in Hattr. split; [done|]. split; [by destruct (attrIsSet s)|].
      destruct next as [| |b|z|x|str|x]; cbn in Hsm; try done; [|eauto].
      by destruct (Z.leb 0 z).
    - right. split; [done|].
      destruct (isStringMode_index _ _ Hsm) as (z & Hz & ->).
      destruct Hpure as [?|[str ?]]; [eauto|done]. }
  case_decide as Hsame.
  - simplify_eq. cbn. symmetry in Hsame.
    pose proof (selectedItem_Some s i Hsame) as Hitem.
    destruct Hmode as [(-> & Hset & str & ->)|(-> & Hunset & z & Hz & ->)].
    + rewrite Hset in Hitem.
      unfold selectedItem in Hsame.
      destruct (truthy (_selected s) || isZero (_selected s)) eqn:Ht; [|done].
      rewrite (truthy_selectedKind s Hk Hset Ht). f_equal.
      apply querySelector_firstWith in Hr.
      apply firstWith_getAttributeAt in Hr, Hitem. cbn in Hr. congruence.
    + rewrite Hunset in Hitem. destruct Hitem as (z' & -> & Hz' & Hch).
      unfold resolve, childrenAt in Hr.
      rewrite (proj2 (Z.leb_le 0 z)) in Hr by done.
      pose proof (NoDup_lookup _ _ _ _ (children_NoDup _) Hr Hch) as Heq.
      f_equal. lia.
  - replace s' with (out, s').2 by done. rewrite <- Hsel.
    destruct (begun_fields i (prepared next table sm i s))
      as (_ & _ & _ & _ & -> & _).
    rewrite prepared_selected.
    destruct Hmode as [(-> & Hset & str & ->)|(-> & Hunset & z & Hz & ->)].
    + rewrite Hset. apply querySelector_firstWith in Hr.
      apply firstWith_getAttributeAt in Hr. cbn in Hr. by rewrite Hr.
    + by rewrite Hunset.
Qed.



(** ** Further properties: stepping forth and back *)

Lemma sameStructure_run acts : ∀ s, sameStructure s (run acts s).
Proof.
  induction acts as [|a acts IH]; intros s; cbn; [apply sameStructure_refl|].
  eapply sameStructure_trans; [apply sameStructure_step|apply IH].
Qed.

Lemma transition_run_selected acts : ∀ s,
  Inv s → duringTransition acts s → _selected (run acts s) = _selected s.
Proof.
  induction acts as [|a acts IH]; intros s HI Hdur; cbn in *; [done|].
  destruct Hdur as [Han Hdur].
  rewrite IH; [|by apply Inv_step|done].
  destruct (busy_step a s HI Han) as [[-> _]|(h & _ & Hp & _ & ->)]; [done|].
  destruct (legEnded (otherLeg h) s).
  - destruct (settling_fields (legDone h s)) as (_ & _ & _ & -> & _).
    apply legDone_selected.
  - apply legDone_selected.
Qed.

Lemma selectNext_at s i p :
  children (tree s) !! i = Some p → selectedItem s = Some p →
  selectNext s =
    select (JsInteger (Z.of_nat
      (if decide (S i = length (children (tree s))) then 0 else S i))) s.
Proof.
  intros Hi Hsel.
  pose proof (children_lookup_nonempty _ _ _ Hi) as Hne.
  pose proof (lookup_lt_Some _ _ _ Hi) as Hlt.
  unfold selectNext, select, mbind, M_bind, this, throw.
  rewrite (decide_False (P := length (children (tree s)) = 0%nat)) by done.
  rewrite Hsel, (indexOf_lookup _ i p (children_NoDup _) Hi).
  f_equal; f_equal. case_decide; index_arith.
Qed.

Lemma selectPrevious_at s i p :
  children (tree s) !! i = Some p → selectedItem s = Some p →
  selectPrevious s =
    select (JsInteger (Z.of_nat
      (if decide (i = 0%nat) then length (children (tree s)) - 1
       else i - 1))) s.
Proof.
  intros Hi Hsel.
  pose proof (children_lookup_nonempty _ _ _ Hi) as Hne.
  pose proof (lookup_lt_Some _ _ _ Hi) as Hlt.
  unfold selectPrevious, select, mbind, M_bind, this, throw.
  rewrite (decide_False (P := length (children (tree s)) = 0%nat)) by done.
  rewrite Hsel, (indexOf_lookup _ i p (children_NoDup _) Hi).
  f_equal; f_equal. case_decide; index_arith.
Qed.

Lemma select_index_selected s k q :
  reachable s → _animating s = false → attrIsSet s = false →
  animationClasses s ≠ None → children (tree s) !! k = Some q →
  _selected (step (Select (JsInteger (Z.of_nat k))) s) = JsInteger (Z.of_nat k).
Proof.
  intros Hreach Han Hunset Hac Hk.
  apply (select_selected s (JsInteger (Z.of_nat k))
           (select (JsInteger (Z.of_nat k)) s).1).
  - by apply reachable_selectedKind.
  - done.
  - cbn. by destruct (select _ s).
  - intros message Hout.
    assert (∃ message s', select (JsInteger (Z.of_nat k)) s =
                          (Throw (Error message), s')) as Hthrow.
    { exists message, (select (JsInteger (Z.of_nat k)) s).2.
      rewrite <- Hout. by destruct (select _ s). }
    apply select_Error_cases in Hthrow
      as [?|[_ [Hno|[(str & ? & _)|(sm & Hsm & Hr)]]]]; try done.
    + apply (Hno false). cbn. by rewrite (proj2 (Z.leb_le 0 _)) by lia.
    + cbn in Hsm. rewrite (proj2 (Z.leb_le 0 _)) in Hsm by lia.
      cbn in Hsm. simplify_eq. unfold resolve, childrenAt in Hr.
      rewrite (proj2 (Z.leb_le 0 _)), Nat2Z.id in Hr by lia. congruence.
  - by left.
Qed.

(** Selecting the child at an index on an idle instance without
    [attrForSelected], and letting the transition settle. *)
Lemma select_index_settled s k q acts :
  reachable s → _animating s = false → attrIsSet s = false →
  animationClasses s ≠ None → children (tree s) !! k = Some q →
  duringTransition acts (step (Select (JsInteger (Z.of_nat k))) s) →
  let s2 := run acts (step (Select (JsInteger (Z.of_nat k))) s) in
  reachable s2 ∧ attrIsSet s2 = false ∧ animationClasses s2 ≠ None ∧
  children (tree s2) = children (tree s) ∧
  _selected s2 = JsInteger (Z.of_nat k) ∧ selectedItem s2 = Some q.
Proof.
  intros Hreach Han Hunset Hac Hk Hdur s2.
  set (s1 := step (Select (JsInteger (Z.of_nat k))) s) in *.
  assert (reachable s2) as Hreach2
    by (apply reachable_run; by apply reachable_step).
  destruct (sameStructure_run (Select (JsInteger (Z.of_nat k)) :: acts) s)
    as (A & B & _ & D & _).
  change (run (Select (JsInteger (Z.of_nat k)) :: acts) s) with s2 in A, B, D.
  assert (attrIsSet s2 = false) as Hunset2.
  { unfold attrIsSet in *. by rewrite B. }
  assert (_selected s2 = JsInteger (Z.of_nat k)) as Hsel2.
  { subst s2. rewrite transition_run_selected; [|by apply reachable_Inv, reachable_step|done].
    by eapply select_index_selected. }
  split_and!; try done; try congruence.
  unfold selectedItem. rewrite Hsel2, truthy_or_zero, Hunset2.
  unfold childrenAt. rewrite (proj2 (Z.leb_le 0 _)), Nat2Z.id by lia.
  by rewrite D.
Qed.

(** X14.  Without [attrForSelected], on an instance that is not animating
    and has a page selected, [selectNext] followed, once its transition has
    settled, by [selectPrevious] selects the page that was selected at the
    start, and so does [selectPrevious] followed by [selectNext]. *)
Theorem selectNext_selectPrevious_inverse (s : State) (acts : list Action) :
  reachable s → _animating s = false → attrIsSet s = false →
  animationClasses s ≠ None → selectedItem s ≠ None →
  (duringTransition acts (step SelectNext s) →
   _animating (run acts (step SelectNext s)) = false →
   selected (step SelectPrevious (run acts (step SelectNext s))) = selected s) ∧
  (duringTransition acts (step SelectPrevious s) →
   _animating (run acts (step SelectPrevious s)) = false →
   selected (step SelectNext (run acts (step SelectPrevious s))) = selected s).
Proof.
  intros Hreach Han Hunset Hac Hsome.
  destruct (selectedItem s) as [p|] eqn:Hitem; [clear Hsome|done].
  pose proof (selectedItem_Some s p Hitem) as Hz. rewrite Hunset in Hz.
  destruct Hz as (z & Hsel & Hz & Hch).
  set (i := Z.to_nat z) in *. set (n := length (children (tree s))).
  pose proof (lookup_lt_Some _ _ _ Hch) as Hlt. fold n in Hlt.
  assert (selected s = JsInteger (Z.of_nat i)) as Hsel'.
  { unfold selected. rewrite Hsel. subst i. by rewrite Z2Nat.id. }
  split.
  - set (k := if decide (S i = n) then 0%nat else S i).
    assert (k < n)%nat as Hk by (subst k; case_decide; lia).
    destruct (lookup_lt_is_Some_2 _ _ Hk) as [q Hq].
    assert (step SelectNext s = step (Select (JsInteger (Z.of_nat k))) s) as ->.
    { cbn. by rewrite (selectNext_at s i p). }
    intros Hdur Hidle.
    destruct (select_index_settled s k q acts) as
      (Hreach2 & Hunset2 & Hac2 & Hch2 & Hsel2 & Hitem2); try done.
    set (s2 := run acts (step (Select (JsInteger (Z.of_nat k))) s)) in *.
    assert (step SelectPrevious s2 = step (Select (JsInteger (Z.of_nat i))) s2) as ->.
    { cbn. rewrite (selectPrevious_at s2 k q) by (by rewrite ?Hch2).
      rewrite Hch2. fold n. do 3 f_equal. subst k.
      repeat case_decide; lia. }
    rewrite Hsel'. rewrite <- Hch2 in Hch.
    by apply (select_index_selected s2 i p).
  - set (k := if decide (i = 0%nat) then (n - 1)%nat else (i - 1)%nat).
    assert (k < n)%nat as Hk by (subst k; case_decide; lia).
    destruct (lookup_lt_is_Some_2 _ _ Hk) as [q Hq].
    assert (step SelectPrevious s = step (Select (JsInteger (Z.of_nat k))) s) as ->.
    { cbn. by rewrite (selectPrevious_at s i p). }
    intros Hdur Hidle.
    destruct (select_index_settled s k q acts) as
      (Hreach2 & Hunset2 & Hac2 & Hch2 & Hsel2 & Hitem2); try done.
    set (s2 := run acts (step (Select (JsInteger (Z.of_nat k))) s)) in *.
    assert (step SelectNext s2 = step (Select (JsInteger (Z.of_nat i))) s2) as ->.
    { cbn. rewrite (selectNext_at s2 k q) by (by rewrite ?Hch2).
      rewrite Hch2. fold n. do 3 f_equal. subst k.
      repeat case_decide; lia. }
    rewrite Hsel'. rewrite <- Hch2 in Hch.
    by apply (select_index_selected s2 i p).
Qed.

Lemma selectNext_selectPrevious_inverse_witness :
  selected
    (step SelectPrevious
       (run [AnimationEnd 0%nat; AnimationEnd 1%nat]
          (step SelectNext
             (run [Select (JsInteger 0); AnimationEnd 0%nat] Examples.noattr)))) =
  JsInteger 0 ∧
  selected
    (step SelectNext
       (run [AnimationEnd 1%nat; AnimationEnd 0%nat]
          (step SelectPrevious
             (run [Select (JsInteger 0); AnimationEnd 0%nat] Examples.noattr)))) =
  JsInteger 0.
Proof.
  destruct (selectNext_selectPrevious_inverse
              (run [Select (JsInteger 0); AnimationEnd 0%nat] Examples.noattr)
              [AnimationEnd 0%nat; AnimationEnd 1%nat]) as [Hnext _].
  { apply reachable_run, reachable_construct. repeat constructor. }
  { vm_compute; reflexivity. }
  { vm_compute; reflexivity. }
  { vm_compute. intros H; discriminate H. }
  { vm_compute. intros H; discriminate H. }
  destruct (selectNext_selectPrevious_inverse
              (run [Select (JsInteger 0); AnimationEnd 0%nat] Examples.noattr)
              [AnimationEnd 1%nat; AnimationEnd 0%nat]) as [_ Hprev].
  { apply reachable_run, reachable_construct. repeat constructor. }
  { vm_compute; reflexivity. }
  { vm_compute; reflexivity. }
  { vm_compute. intros H; discriminate H. }
  { vm_compute. intros H; discriminate H. }
  split.
  - etransitivity; [refine (Hnext _ _)|]; vm_compute; try reflexivity.
    repeat split.
  - etransitivity; [refine (Hprev _ _)|]; vm_compute; try reflexivity.
    repeat split.
Defined.

(** ** Further properties: the pages that are shown *)










(** ** Further properties: the index the stepping methods select *)

Lemma indexOf_range ch item :
  (-1 ≤ indexOf ch item)%Z ∧ (indexOf ch item < Z.of_nat (length ch))%Z.
Proof.
  unfold indexOf. destruct item as [n|]; [|lia].
  destruct (list_find (λ c, c = n) ch) as [[j x]|] eqn:Hf; [|lia].
  apply list_find_Some in Hf as (Hj%lookup_lt_Some & _). lia.
Qed.

Lemma select_index_Error s k p message s' :
  children (tree s) !! k = Some p →
  select (JsInteger (Z.of_nat k)) s = (Throw (Error message), s') →
  animationClasses s = None ∧ message = "animationClasses must be defined".
Proof.
  intros Hk Hthrow.
  assert (∃ message s', select (JsInteger (Z.of_nat k)) s =
                        (Throw (Error message), s')) as Hcase by eauto.
  apply select_Error_cases in Hcase
    as [Hac|[_ [Hno|[(str & ? & _)|(sm & Hsm & Hr)]]]]; try done.
  - split; [done|]. unfold select in Hthrow.
    rewrite set_selected_unset in Hthrow by done. congruence.
  - exfalso. apply (Hno false). cbn. by rewrite (proj2 (Z.leb_le 0 _)) by lia.
  - exfalso. cbn in Hsm. rewrite (proj2 (Z.leb_le 0 _)) in Hsm by lia.
    cbn in Hsm. simplify_eq. unfold resolve, childrenAt in Hr.
    rewrite (proj2 (Z.leb_le 0 _)), Nat2Z.id in Hr by lia. congruence.
Qed.

Lemma selectNext_in_range s :
  children (tree s) ≠ [] →
  ∃ k p, children (tree s) !! k = Some p ∧
         selectNext s = select (JsInteger (Z.of_nat k)) s.
Proof.
  intros Hch.
  assert (length (children (tree s)) ≠ 0%nat) as Hne.
  { destruct (children (tree s)); [done|cbn; lia]. }
  destruct (indexOf_range (children (tree s)) (selectedItem s)) as [Hlo Hhi].
  set (prevIndex := indexOf (children (tree s)) (selectedItem s)) in *.
  set (nextIndex :=
         if Z.leb (Z.of_nat (length (children (tree s)))) (prevIndex + 1)
         then 0%Z else (prevIndex + 1)%Z).
  assert (0 ≤ nextIndex < Z.of_nat (length (children (tree s))))%Z as Hin.
  { subst nextIndex. destruct (Z.leb_spec (Z.of_nat (length (children (tree s))))
                                 (prevIndex + 1)); lia. }
  destruct (lookup_lt_is_Some_2 (children (tree s)) (Z.to_nat nextIndex))
    as [p Hp]; [lia|].
  exists (Z.to_nat nextIndex), p. split; [done|].
  rewrite Z2Nat.id by lia.
  unfold selectNext, select, mbind, M_bind, this, throw.
  by rewrite (decide_False (P := length (children (tree s)) = 0%nat)) by done.
Qed.

Lemma selectPrevious_in_range s :
  children (tree s) ≠ [] →
  ∃ k p, children (tree s) !! k = Some p ∧
         selectPrevious s = select (JsInteger (Z.of_nat k)) s.
Proof.
  intros Hch.
  assert (length (children (tree s)) ≠ 0%nat) as Hne.
  { destruct (children (tree s)); [done|cbn; lia]. }
  destruct (indexOf_range (children (tree s)) (selectedItem s)) as [Hlo Hhi].
  set (prevIndex := indexOf (children (tree s)) (selectedItem s)) in *.
  set (nextIndex :=
         if Z.ltb (prevIndex - 1) 0
         then (Z.of_nat (length (children (tree s))) - 1)%Z
         else (prevIndex - 1)%Z).
  assert (0 ≤ nextIndex < Z.of_nat (length (children (tree s))))%Z as Hin.
  { subst nextIndex. destruct (Z.ltb_spec (prevIndex - 1) 0); lia. }
  destruct (lookup_lt_is_Some_2 (children (tree s)) (Z.to_nat nextIndex))
    as [p Hp]; [lia|].
  exists (Z.to_nat nextIndex), p. split; [done|].
  rewrite Z2Nat.id by lia.
  unfold selectPrevious, select, mbind, M_bind, this, throw.
  by rewrite (decide_False (P := length (children (tree s)) = 0%nat)) by done.
Qed.

(** X16.  On an element with children, [selectNext] and [selectPrevious]
    always hand the setter the index of an existing child, whatever is
    selected: nothing, a child, or an element that is not a child.  So of
    the [Error]s of the setter they can
    only throw the one for a missing [animationClasses]: never the one for
    an identifier of the wrong kind, and never the one for a page that is
    not found. *)
Theorem selectNext_selectPrevious_find_a_page (s : State) :
  children (tree s) ≠ [] →
  (∃ k p, children (tree s) !! k = Some p ∧
          selectNext s = select (JsInteger (Z.of_nat k)) s) ∧
  (∃ k p, children (tree s) !! k = Some p ∧
          selectPrevious s = select (JsInteger (Z.of_nat k)) s) ∧
  (∀ message s',
     selectNext s = (Throw (Error message), s') ∨
     selectPrevious s = (Throw (Error message), s') →
     animationClasses s = None ∧ message = "animationClasses must be defined").
Proof.
  intros Hch. split_and!.
  - by apply selectNext_in_range.
  - by apply selectPrevious_in_range.
  - intros message s' [Hthrow|Hthrow].
    + destruct (selectNext_in_range s Hch) as (k & p & Hk & Heq).
      rewrite Heq in Hthrow. by apply (select_index_Error s k p message s').
    + destruct (selectPrevious_in_range s Hch) as (k & p & Hk & Heq).
      rewrite Heq in Hthrow. by apply (select_index_Error s k p message s').
Qed.

Lemma selectNext_selectPrevious_find_a_page_witness :
  ∃ k p, children (tree Examples.nestedPages) !! k = Some p ∧
         selectNext Examples.nestedPages =
         select (JsInteger (Z.of_nat k)) Examples.nestedPages.
Proof.
  apply (selectNext_selectPrevious_find_a_page Examples.nestedPages).
  vm_compute. discriminate.
Defined.
